(** * CDiscAdjVariable: the per-node store of the discrete-adjoint solver

    A shallow embedding of [SU2_CFD/include/variables/CDiscAdjVariable.hpp].
    The class is a bundle of thirteen matrices indexed by (node, component)
    together with one-line setters and getters, three batched setters that
    copy a caller-supplied vector into a row, and three snapshot operations
    that copy one row of a matrix into the same row of another one.

    Conventions of the embedding:
    - [Idx_t] (an unsigned integer type) is [nat]; the only arithmetic the
      class does on indices is the loop increment, which is bounded by
      [nVar] or [nDim] and so never wraps.
    - [su2double] is a type parameter: the class only stores and copies
      values, it never computes with them.  Equality of two values is
      identity of what is stored.
    - a member function becomes a function on the object state; a mutating
      one returns the new state in the error monad [res]. *)

From stdpp Require Import base numbers list.

(** ** Error monad *)

(** [OutOfBounds]: the matrix accessor was called outside the matrix.
    [BufferOverrun]: a caller-supplied [const su2double*] was read past
    the end of the vector it points to (undefined behaviour in C++; the
    embedding makes it a fault so that no value is invented). *)
Inductive fault : Set := OutOfBounds | BufferOverrun.

Inductive res (A : Type) : Type :=
| Ok (a : A)
| Fail (e : fault).
Arguments Ok {A} a.
Arguments Fail {A} e.

Definition bind {A B : Type} (r : res A) (k : A -> res B) : res B :=
  match r with
  | Ok a => k a
  | Fail e => Fail e
  end.

Notation "'let*' x ':=' e 'in' k" := (bind e (fun x => k))
  (at level 10, x name, e at level 200, k at level 200).

Definition is_ok {A : Type} (r : res A) : bool :=
  match r with Ok _ => true | Fail _ => false end.

(** [for (i = lo; i < lo + n; i++) body(i)] *)
Fixpoint for_range {St : Type} (lo n : nat) (body : nat -> St -> res St) (s : St) : res St :=
  match n with
  | O => Ok s
  | S n' => let* s' := body lo s in for_range (S lo) n' body s'
  end.

(** [for (i = 0; i < n; i++) body(i)] *)
Definition for_loop {St : Type} (n : nat) (body : nat -> St -> res St) (s : St) : res St :=
  for_range 0 n body s.

(** ** Matrices *)

(** Modelled from the spec: the matrix type [Mat_t] is declared in
    [CVariable.hpp], which is not part of the sources at hand.  The spec
    describes it as a fixed-shape 2-D numeric array keyed by (node index,
    component index) whose [get] and [set] are bounds-checked against the
    number of rows and the declared width.  A matrix is the list of its
    rows; [m(i,j)] outside the matrix is the fault [OutOfBounds]. *)
Definition Mat_t (T : Type) : Type := list (list T).

Section Matrix.
Context {T : Type}.

(** Modelled from the spec: the accessor [m(i,j)] of the missing [Mat_t],
    read; bounds-checked. *)
Definition mat_get (m : Mat_t T) (i j : nat) : res T :=
  match (m : list (list T)) !! i with
  | Some r =>
      match r !! j with
      | Some x => Ok x
      | None => Fail OutOfBounds
      end
  | None => Fail OutOfBounds
  end.

(** Modelled from the spec: the accessor [m(i,j)] of the missing [Mat_t],
    assigned to ([m(i,j) = x]); bounds-checked. *)
Definition mat_set (m : Mat_t T) (i j : nat) (x : T) : res (Mat_t T) :=
  match (m : list (list T)) !! i with
  | Some r =>
      if decide (j < length r)
      then Ok (<[i := <[j := x]> r]> (m : list (list T)))
      else Fail OutOfBounds
  | None => Fail OutOfBounds
  end.

(** Modelled from the spec: the row accessor [m[i]] of the missing
    [Mat_t]; bounds-checked on the node index. *)
Definition mat_row (m : Mat_t T) (i : nat) : res (list T) :=
  match (m : list (list T)) !! i with
  | Some r => Ok r
  | None => Fail OutOfBounds
  end.

(** [p[i]] for a caller-supplied [const su2double* p] that points to the
    vector [p] *)
Definition deref (p : list T) (i : nat) : res T :=
  match p !! i with
  | Some x => Ok x
  | None => Fail BufferOverrun
  end.

(** A matrix of [n] rows, each [w] wide. *)
Definition mat_shapeb (n w : nat) (m : Mat_t T) : bool :=
  (length m =? n) && forallb (fun r : list T => length r =? w) m.

Definition mat_shape (n w : nat) (m : Mat_t T) : Prop :=
  length m = n /\ forall i r, (m : list (list T)) !! i = Some r -> length r = w.
End Matrix.

(** ** The class *)

(** The thirteen matrix members, as tags. *)
Inductive field : Set :=
| F_Sensitivity
| F_Solution_Direct
| F_DualTime_Derivative
| F_DualTime_Derivative_n
| F_Cross_Term_Derivative
| F_Geometry_CrossTerm_Derivative
| F_Geometry_CrossTerm_Derivative_Flow
| F_Solution_Geometry
| F_Solution_Geometry_Old
| F_Geometry_Direct
| F_Solution_BGS
| F_Solution_BGS_k
| F_Solution_Geometry_BGS_k.

#[global] Instance field_eq_dec : EqDecision field.
Proof. solve_decision. Defined.

Definition all_fields : list field :=
  [ F_Sensitivity; F_Solution_Direct; F_DualTime_Derivative;
    F_DualTime_Derivative_n; F_Cross_Term_Derivative;
    F_Geometry_CrossTerm_Derivative; F_Geometry_CrossTerm_Derivative_Flow;
    F_Solution_Geometry; F_Solution_Geometry_Old; F_Geometry_Direct;
    F_Solution_BGS; F_Solution_BGS_k; F_Solution_Geometry_BGS_k ].

(** The second axis of a field: a variable component (width [nVar]) or a
    spatial component (width [nDim]).  The loops of the header fix the axis
    of [Solution_Direct], [Geometry_Direct], [Solution_Geometry],
    [Solution_Geometry_Old], [Solution_BGS], [Solution_BGS_k] and
    [Solution_Geometry_BGS_k]; for the other members, which are sized in
    the constructor, it is the axis the spec's data model gives them. *)
Inductive axis : Set := VariableAxis | SpatialAxis.

Definition axis_of (f : field) : axis :=
  match f with
  | F_Sensitivity => SpatialAxis
  | F_Solution_Direct => VariableAxis
  | F_DualTime_Derivative => VariableAxis
  | F_DualTime_Derivative_n => VariableAxis
  | F_Cross_Term_Derivative => VariableAxis
  | F_Geometry_CrossTerm_Derivative => SpatialAxis
  | F_Geometry_CrossTerm_Derivative_Flow => SpatialAxis
  | F_Solution_Geometry => SpatialAxis
  | F_Solution_Geometry_Old => SpatialAxis
  | F_Geometry_Direct => SpatialAxis
  | F_Solution_BGS => VariableAxis
  | F_Solution_BGS_k => VariableAxis
  | F_Solution_Geometry_BGS_k => SpatialAxis
  end.

(** The object state: the sizes inherited from [CVariable] and the
    thirteen matrices of the class. *)
Record CDiscAdjVariable (su2double : Type) : Type := mkCDiscAdjVariable {
  nPoint : nat;
  nDim : nat;
  nVar : nat;
  Sensitivity : Mat_t su2double;
  Solution_Direct : Mat_t su2double;
  DualTime_Derivative : Mat_t su2double;
  DualTime_Derivative_n : Mat_t su2double;
  Cross_Term_Derivative : Mat_t su2double;
  Geometry_CrossTerm_Derivative : Mat_t su2double;
  Geometry_CrossTerm_Derivative_Flow : Mat_t su2double;
  Solution_Geometry : Mat_t su2double;
  Solution_Geometry_Old : Mat_t su2double;
  Geometry_Direct : Mat_t su2double;
  Solution_BGS : Mat_t su2double;
  Solution_BGS_k : Mat_t su2double;
  Solution_Geometry_BGS_k : Mat_t su2double
}.
Arguments mkCDiscAdjVariable {su2double}.
Arguments nPoint {su2double} _.
Arguments nDim {su2double} _.
Arguments nVar {su2double} _.
Arguments Sensitivity {su2double} _.
Arguments Solution_Direct {su2double} _.
Arguments DualTime_Derivative {su2double} _.
Arguments DualTime_Derivative_n {su2double} _.
Arguments Cross_Term_Derivative {su2double} _.
Arguments Geometry_CrossTerm_Derivative {su2double} _.
Arguments Geometry_CrossTerm_Derivative_Flow {su2double} _.
Arguments Solution_Geometry {su2double} _.
Arguments Solution_Geometry_Old {su2double} _.
Arguments Geometry_Direct {su2double} _.
Arguments Solution_BGS {su2double} _.
Arguments Solution_BGS_k {su2double} _.
Arguments Solution_Geometry_BGS_k {su2double} _.

(** [Idx_t], the unsigned index type of [CVariable.hpp] *)
Abbreviation Idx_t := nat (only parsing).

Section Class.
Context {su2double : Type}.

#[local] Abbreviation obj := (CDiscAdjVariable su2double).

Definition get_field (f : field) (v : obj) : Mat_t su2double :=
  match f with
  | F_Sensitivity => Sensitivity v
  | F_Solution_Direct => Solution_Direct v
  | F_DualTime_Derivative => DualTime_Derivative v
  | F_DualTime_Derivative_n => DualTime_Derivative_n v
  | F_Cross_Term_Derivative => Cross_Term_Derivative v
  | F_Geometry_CrossTerm_Derivative => Geometry_CrossTerm_Derivative v
  | F_Geometry_CrossTerm_Derivative_Flow => Geometry_CrossTerm_Derivative_Flow v
  | F_Solution_Geometry => Solution_Geometry v
  | F_Solution_Geometry_Old => Solution_Geometry_Old v
  | F_Geometry_Direct => Geometry_Direct v
  | F_Solution_BGS => Solution_BGS v
  | F_Solution_BGS_k => Solution_BGS_k v
  | F_Solution_Geometry_BGS_k => Solution_Geometry_BGS_k v
  end.

(** The object with member [f] replaced by [m], every other member kept. *)
Definition set_field (f : field) (m : Mat_t su2double) (v : obj) : obj :=
  let pick g := if decide (f = g) then m else get_field g v in
  {| nPoint := nPoint v;
     nDim := nDim v;
     nVar := nVar v;
     Sensitivity := pick F_Sensitivity;
     Solution_Direct := pick F_Solution_Direct;
     DualTime_Derivative := pick F_DualTime_Derivative;
     DualTime_Derivative_n := pick F_DualTime_Derivative_n;
     Cross_Term_Derivative := pick F_Cross_Term_Derivative;
     Geometry_CrossTerm_Derivative := pick F_Geometry_CrossTerm_Derivative;
     Geometry_CrossTerm_Derivative_Flow := pick F_Geometry_CrossTerm_Derivative_Flow;
     Solution_Geometry := pick F_Solution_Geometry;
     Solution_Geometry_Old := pick F_Solution_Geometry_Old;
     Geometry_Direct := pick F_Geometry_Direct;
     Solution_BGS := pick F_Solution_BGS;
     Solution_BGS_k := pick F_Solution_BGS_k;
     Solution_Geometry_BGS_k := pick F_Solution_Geometry_BGS_k |}.

(** The declared width of a field: [nVar] for variable fields, [nDim]
    for spatial ones. *)
Definition width (f : field) (v : obj) : nat :=
  match axis_of f with
  | VariableAxis => nVar v
  | SpatialAxis => nDim v
  end.

(** Class invariant: every matrix has [nPoint] rows of the declared
    width. *)
Definition wfb (v : obj) : bool :=
  forallb (fun f => mat_shapeb (nPoint v) (width f v) (get_field f v)) all_fields.

Definition wf (v : obj) : Prop := wfb v = true.

(** [F(iPoint,j)] read *)
Definition fetch (f : field) (iPoint j : Idx_t) (v : obj) : res su2double :=
  mat_get (get_field f v) iPoint j.

(** [F(iPoint,j) = x] *)
Definition assign (f : field) (iPoint j : Idx_t) (x : su2double) (v : obj) : res obj :=
  let* m := mat_set (get_field f v) iPoint j x in
  Ok (set_field f m v).

(** *** Member functions, in the order of the header

    In [F(iPoint,j) = e] the right-hand side is evaluated first (as C++17
    sequences it), then the accessor of the left-hand side is called and
    the value stored.  A loop reads its bound [nVar] or [nDim] once: its
    body never changes them. *)

Definition SetSensitivity (iPoint iDim : Idx_t) (val : su2double) (v : obj) : res obj :=
  assign F_Sensitivity iPoint iDim val v.

Definition GetSensitivity (iPoint iDim : Idx_t) (v : obj) : res su2double :=
  fetch F_Sensitivity iPoint iDim v.

Definition SetDual_Time_Derivative (iPoint iVar : Idx_t) (der : su2double) (v : obj) : res obj :=
  assign F_DualTime_Derivative iPoint iVar der v.

Definition SetDual_Time_Derivative_n (iPoint iVar : Idx_t) (der : su2double) (v : obj) : res obj :=
  assign F_DualTime_Derivative_n iPoint iVar der v.

Definition GetDual_Time_Derivative (iPoint iVar : Idx_t) (v : obj) : res su2double :=
  fetch F_DualTime_Derivative iPoint iVar v.

Definition GetDual_Time_Derivative_n (iPoint iVar : Idx_t) (v : obj) : res su2double :=
  fetch F_DualTime_Derivative_n iPoint iVar v.

Definition SetSolution_Direct (iPoint : Idx_t) (val_solution_direct : list su2double)
    (v : obj) : res obj :=
  for_loop (nVar v) (fun iVar v =>
    let* x := deref val_solution_direct iVar in
    assign F_Solution_Direct iPoint iVar x v) v.

(** returns the pointer [Solution_Direct[iPoint]] to the row of the node;
    the embedding returns the content of the row *)
Definition GetSolution_Direct (iPoint : Idx_t) (v : obj) : res (list su2double) :=
  mat_row (Solution_Direct v) iPoint.

Definition SetGeometry_Direct (iPoint : Idx_t) (val_geometry_direct : list su2double)
    (v : obj) : res obj :=
  for_loop (nDim v) (fun iDim v =>
    let* x := deref val_geometry_direct iDim in
    assign F_Geometry_Direct iPoint iDim x v) v.

(** the overload that returns [Geometry_Direct[iPoint]] *)
Definition GetGeometry_Direct_row (iPoint : Idx_t) (v : obj) : res (list su2double) :=
  mat_row (Geometry_Direct v) iPoint.

Definition GetGeometry_Direct (iPoint iDim : Idx_t) (v : obj) : res su2double :=
  fetch F_Geometry_Direct iPoint iDim v.

Definition GetSolution_Geometry (iPoint iDim : Idx_t) (v : obj) : res su2double :=
  fetch F_Solution_Geometry iPoint iDim v.

(** the overload that takes a vector *)
Definition SetSolution_Geometry_vec (iPoint : Idx_t) (val_solution_geometry : list su2double)
    (v : obj) : res obj :=
  for_loop (nDim v) (fun iDim v =>
    let* x := deref val_solution_geometry iDim in
    assign F_Solution_Geometry iPoint iDim x v) v.

(** the overload that takes one component *)
Definition SetSolution_Geometry (iPoint iVar : Idx_t) (val_solution_geometry : su2double)
    (v : obj) : res obj :=
  assign F_Solution_Geometry iPoint iVar val_solution_geometry v.

Definition GetGeometry_CrossTerm_Derivative (iPoint iVar : Idx_t) (v : obj) : res su2double :=
  fetch F_Geometry_CrossTerm_Derivative iPoint iVar v.

Definition SetGeometry_CrossTerm_Derivative (iPoint iDim : Idx_t) (der : su2double)
    (v : obj) : res obj :=
  assign F_Geometry_CrossTerm_Derivative iPoint iDim der v.

Definition GetGeometry_CrossTerm_Derivative_Flow (iPoint iVar : Idx_t) (v : obj) : res su2double :=
  fetch F_Geometry_CrossTerm_Derivative_Flow iPoint iVar v.

Definition SetGeometry_CrossTerm_Derivative_Flow (iPoint iDim : Idx_t) (der : su2double)
    (v : obj) : res obj :=
  assign F_Geometry_CrossTerm_Derivative_Flow iPoint iDim der v.

Definition Set_OldSolution_Geometry (iPoint : Idx_t) (v : obj) : res obj :=
  for_loop (nDim v) (fun iDim v =>
    let* x := fetch F_Solution_Geometry iPoint iDim v in
    assign F_Solution_Geometry_Old iPoint iDim x v) v.

Definition Get_OldSolution_Geometry (iPoint iDim : Idx_t) (v : obj) : res su2double :=
  fetch F_Solution_Geometry_Old iPoint iDim v.

Definition Set_BGSSolution (iPoint iDim : Idx_t) (val_solution : su2double) (v : obj) : res obj :=
  assign F_Solution_BGS iPoint iDim val_solution v.

Definition Set_BGSSolution_k (iPoint : Idx_t) (v : obj) : res obj :=
  for_loop (nVar v) (fun iVar v =>
    let* x := fetch F_Solution_BGS iPoint iVar v in
    assign F_Solution_BGS_k iPoint iVar x v) v.

Definition Get_BGSSolution (iPoint iDim : Idx_t) (v : obj) : res su2double :=
  fetch F_Solution_BGS iPoint iDim v.

Definition Get_BGSSolution_k (iPoint iDim : Idx_t) (v : obj) : res su2double :=
  fetch F_Solution_BGS_k iPoint iDim v.

Definition Set_BGSSolution_Geometry (iPoint : Idx_t) (v : obj) : res obj :=
  for_loop (nDim v) (fun iDim v =>
    let* x := fetch F_Solution_Geometry iPoint iDim v in
    assign F_Solution_Geometry_BGS_k iPoint iDim x v) v.

Definition Get_BGSSolution_Geometry (iPoint iDim : Idx_t) (v : obj) : res su2double :=
  fetch F_Solution_Geometry_BGS_k iPoint iDim v.

Definition SetCross_Term_Derivative (iPoint iVar : Idx_t) (der : su2double) (v : obj) : res obj :=
  assign F_Cross_Term_Derivative iPoint iVar der v.

Definition GetCross_Term_Derivative (iPoint iVar : Idx_t) (v : obj) : res su2double :=
  fetch F_Cross_Term_Derivative iPoint iVar v.

(** *** The mutating member functions as data

    A call of a mutating member function on a node, so that statements
    can range over every setter and snapshot operation and over call
    sequences. *)
Inductive mutator : Type :=
| M_SetSensitivity (iDim : Idx_t) (val : su2double)
| M_SetDual_Time_Derivative (iVar : Idx_t) (der : su2double)
| M_SetDual_Time_Derivative_n (iVar : Idx_t) (der : su2double)
| M_SetSolution_Direct (val_solution_direct : list su2double)
| M_SetGeometry_Direct (val_geometry_direct : list su2double)
| M_SetSolution_Geometry_vec (val_solution_geometry : list su2double)
| M_SetSolution_Geometry (iVar : Idx_t) (val_solution_geometry : su2double)
| M_SetGeometry_CrossTerm_Derivative (iDim : Idx_t) (der : su2double)
| M_SetGeometry_CrossTerm_Derivative_Flow (iDim : Idx_t) (der : su2double)
| M_Set_OldSolution_Geometry
| M_Set_BGSSolution (iDim : Idx_t) (val_solution : su2double)
| M_Set_BGSSolution_k
| M_Set_BGSSolution_Geometry
| M_SetCross_Term_Derivative (iVar : Idx_t) (der : su2double).

Definition call (m : mutator) (iPoint : Idx_t) (v : obj) : res obj :=
  match m with
  | M_SetSensitivity iDim val => SetSensitivity iPoint iDim val v
  | M_SetDual_Time_Derivative iVar der => SetDual_Time_Derivative iPoint iVar der v
  | M_SetDual_Time_Derivative_n iVar der => SetDual_Time_Derivative_n iPoint iVar der v
  | M_SetSolution_Direct val => SetSolution_Direct iPoint val v
  | M_SetGeometry_Direct val => SetGeometry_Direct iPoint val v
  | M_SetSolution_Geometry_vec val => SetSolution_Geometry_vec iPoint val v
  | M_SetSolution_Geometry iVar val => SetSolution_Geometry iPoint iVar val v
  | M_SetGeometry_CrossTerm_Derivative iDim der =>
      SetGeometry_CrossTerm_Derivative iPoint iDim der v
  | M_SetGeometry_CrossTerm_Derivative_Flow iDim der =>
      SetGeometry_CrossTerm_Derivative_Flow iPoint iDim der v
  | M_Set_OldSolution_Geometry => Set_OldSolution_Geometry iPoint v
  | M_Set_BGSSolution iDim val => Set_BGSSolution iPoint iDim val v
  | M_Set_BGSSolution_k => Set_BGSSolution_k iPoint v
  | M_Set_BGSSolution_Geometry => Set_BGSSolution_Geometry iPoint v
  | M_SetCross_Term_Derivative iVar der => SetCross_Term_Derivative iPoint iVar der v
  end.

(** The one member a mutating function assigns to. *)
Definition target (m : mutator) : field :=
  match m with
  | M_SetSensitivity _ _ => F_Sensitivity
  | M_SetDual_Time_Derivative _ _ => F_DualTime_Derivative
  | M_SetDual_Time_Derivative_n _ _ => F_DualTime_Derivative_n
  | M_SetSolution_Direct _ => F_Solution_Direct
  | M_SetGeometry_Direct _ => F_Geometry_Direct
  | M_SetSolution_Geometry_vec _ => F_Solution_Geometry
  | M_SetSolution_Geometry _ _ => F_Solution_Geometry
  | M_SetGeometry_CrossTerm_Derivative _ _ => F_Geometry_CrossTerm_Derivative
  | M_SetGeometry_CrossTerm_Derivative_Flow _ _ => F_Geometry_CrossTerm_Derivative_Flow
  | M_Set_OldSolution_Geometry => F_Solution_Geometry_Old
  | M_Set_BGSSolution _ _ => F_Solution_BGS
  | M_Set_BGSSolution_k => F_Solution_BGS_k
  | M_Set_BGSSolution_Geometry => F_Solution_Geometry_BGS_k
  | M_SetCross_Term_Derivative _ _ => F_Cross_Term_Derivative
  end.

(** A sequence of calls [(iPoint, m)], run in order; the first fault
    ends the run. *)
Fixpoint run (calls : list (Idx_t * mutator)) (v : obj) : res obj :=
  match calls with
  | [] => Ok v
  | (iPoint, m) :: rest => let* v' := call m iPoint v in run rest v'
  end.

(** [touches f i c]: the call [c] is a call on node [i] of a function
    that assigns to member [f]. *)
Definition touches (f : field) (i : Idx_t) (c : Idx_t * mutator) : bool :=
  bool_decide (c.1 = i) && bool_decide (target c.2 = f).

(** No call of the sequence assigns to member [f] at node [i]. *)
Definition never_touched (f : field) (i : Idx_t) (calls : list (Idx_t * mutator)) : bool :=
  forallb (fun c => negb (touches f i c)) calls.

(** Calls of [Set_BGSSolution] only. *)
Definition bgs_writes (ws : list (Idx_t * Idx_t * su2double)) : list (Idx_t * mutator) :=
  map (fun w => (w.1.1, M_Set_BGSSolution w.1.2 w.2)) ws.

(** [modifies_only f i v v']: from [v] to [v'] nothing changed but row
    [i] of member [f], and the class invariant was kept. *)
Definition modifies_only (f : field) (i : Idx_t) (v v' : obj) : Prop :=
  nPoint v' = nPoint v /\ nDim v' = nDim v /\ nVar v' = nVar v /\
  (forall g, g <> f -> get_field g v' = get_field g v) /\
  (forall k, k <> i ->
     (get_field f v' : list (list su2double)) !! k = (get_field f v : list (list su2double)) !! k) /\
  (wf v -> wf v').

(** *** Construction *)

(** Modelled from the spec: the constructor is only declared in the
    header, its body and [CConfig] are not part of the sources at hand.
    The spec says that the store is created with (initial value vector,
    N, nDim, nVar, run configuration), that every array has exactly N
    rows and the width of its axis, that all fields initialize to a
    caller-supplied baseline value (the initial adjoint guess) or zero,
    and that the configuration supplies the initialization policy.  So
    the configuration says, per field, which of the two baselines it
    gets, and [zero] is the zero of [su2double]. *)
Inductive init_kind : Set := InitFromSol | InitZero.

Record CConfig : Set := mkCConfig { init_policy : field -> init_kind }.

Definition baseline_row (zero : su2double) (sol : list su2double) (w : nat)
    (k : init_kind) : res (list su2double) :=
  match k with
  | InitZero => Ok (replicate w zero)
  | InitFromSol =>
      if decide (w <= length sol) then Ok (take w sol) else Fail BufferOverrun
  end.

Definition alloc (zero : su2double) (sol : list su2double) (npoint w : nat)
    (k : init_kind) : res (Mat_t su2double) :=
  let* row := baseline_row zero sol w k in
  Ok (replicate npoint row).

Definition axis_width (ndim nvar : Idx_t) (f : field) : nat :=
  match axis_of f with
  | VariableAxis => nvar
  | SpatialAxis => ndim
  end.

(** Modelled from the spec: the body of the constructor
    [CDiscAdjVariable(sol, npoint, ndim, nvar, config)], which the header
    only declares.  Every member gets [npoint] rows of the width of its
    axis, each row being the member's baseline. *)
Definition CDiscAdjVariable_new (zero : su2double) (sol : list su2double)
    (npoint ndim nvar : Idx_t) (config : CConfig) : res obj :=
  let mk f := alloc zero sol npoint (axis_width ndim nvar f) (init_policy config f) in
  let* m1 := mk F_Sensitivity in
  let* m2 := mk F_Solution_Direct in
  let* m3 := mk F_DualTime_Derivative in
  let* m4 := mk F_DualTime_Derivative_n in
  let* m5 := mk F_Cross_Term_Derivative in
  let* m6 := mk F_Geometry_CrossTerm_Derivative in
  let* m7 := mk F_Geometry_CrossTerm_Derivative_Flow in
  let* m8 := mk F_Solution_Geometry in
  let* m9 := mk F_Solution_Geometry_Old in
  let* m10 := mk F_Geometry_Direct in
  let* m11 := mk F_Solution_BGS in
  let* m12 := mk F_Solution_BGS_k in
  let* m13 := mk F_Solution_Geometry_BGS_k in
  Ok (mkCDiscAdjVariable npoint ndim nvar m1 m2 m3 m4 m5 m6 m7 m8 m9 m10 m11 m12 m13).

(** The row every node of field [f], of width [w], starts with. *)
Definition baseline_vector (zero : su2double) (sol : list su2double) (config : CConfig)
    (w : nat) (f : field) : list su2double :=
  match init_policy config f with
  | InitZero => replicate w zero
  | InitFromSol => take w sol
  end.

(** The baseline of component [c] of a row of field [f]. *)
Definition baseline (zero : su2double) (sol : list su2double) (config : CConfig)
    (f : field) (c : Idx_t) : su2double :=
  match init_policy config f with
  | InitZero => zero
  | InitFromSol => default zero (sol !! c)
  end.
End Class.

(** ** Sample objects

    Objects with every entry zero, over [Z] as the value type; the
    examples below run the member functions on them. *)

Definition zeros (n w : nat) : Mat_t Z := replicate n (replicate w 0%Z).

Definition demo (npoint ndim nvar : nat) : CDiscAdjVariable Z :=
  {| nPoint := npoint; nDim := ndim; nVar := nvar;
     Sensitivity := zeros npoint ndim;
     Solution_Direct := zeros npoint nvar;
     DualTime_Derivative := zeros npoint nvar;
     DualTime_Derivative_n := zeros npoint nvar;
     Cross_Term_Derivative := zeros npoint nvar;
     Geometry_CrossTerm_Derivative := zeros npoint ndim;
     Geometry_CrossTerm_Derivative_Flow := zeros npoint ndim;
     Solution_Geometry := zeros npoint ndim;
     Solution_Geometry_Old := zeros npoint ndim;
     Geometry_Direct := zeros npoint ndim;
     Solution_BGS := zeros npoint nvar;
     Solution_BGS_k := zeros npoint nvar;
     Solution_Geometry_BGS_k := zeros npoint ndim |}.

Definition all_zero : CConfig := mkCConfig (fun _ => InitZero).

(** The policy that starts [Solution_BGS] and [Solution_BGS_k] from the
    initial vector and every other member from zero. *)
Definition bgs_from_sol : CConfig :=
  mkCConfig (fun f =>
    match f with
    | F_Solution_BGS | F_Solution_BGS_k => InitFromSol
    | _ => InitZero
    end).

(** ** A uniform view of the mutating member functions

    Each of the fourteen mutating member functions is of one of three
    shapes: an assignment to one entry, a loop that copies the caller's
    vector into a row, or a loop that copies the row of another member. *)

Section Views.
Context {su2double : Type}.

#[local] Abbreviation obj := (CDiscAdjVariable su2double).

Inductive call_kind : Type :=
| Elementwise (j : Idx_t) (x : su2double)
| Batched (vec : list su2double)
| Snapshot (from : field).

Definition kind (m : @mutator su2double) : call_kind :=
  match m with
  | M_SetSensitivity iDim val => Elementwise iDim val
  | M_SetDual_Time_Derivative iVar der => Elementwise iVar der
  | M_SetDual_Time_Derivative_n iVar der => Elementwise iVar der
  | M_SetSolution_Direct val => Batched val
  | M_SetGeometry_Direct val => Batched val
  | M_SetSolution_Geometry_vec val => Batched val
  | M_SetSolution_Geometry iVar val => Elementwise iVar val
  | M_SetGeometry_CrossTerm_Derivative iDim der => Elementwise iDim der
  | M_SetGeometry_CrossTerm_Derivative_Flow iDim der => Elementwise iDim der
  | M_Set_OldSolution_Geometry => Snapshot F_Solution_Geometry
  | M_Set_BGSSolution iDim val => Elementwise iDim val
  | M_Set_BGSSolution_k => Snapshot F_Solution_BGS
  | M_Set_BGSSolution_Geometry => Snapshot F_Solution_Geometry
  | M_SetCross_Term_Derivative iVar der => Elementwise iVar der
  end.

(** The member a call reads: the one a snapshot operation copies from. *)
Definition source (m : @mutator su2double) : option field :=
  match kind m with
  | Snapshot from => Some from
  | _ => None
  end.

(** What entry [(iPoint, c)] of the target member reads after the call. *)
Definition written (m : @mutator su2double) (iPoint c : Idx_t) (v : obj) : res su2double :=
  match kind m with
  | Elementwise j x => if decide (c = j) then Ok x else fetch (target m) iPoint c v
  | Batched vec => deref vec c
  | Snapshot from => fetch from iPoint c v
  end.

(** The sizes for which the call runs to its end. *)
Definition callable (m : @mutator su2double) (iPoint : Idx_t) (v : obj) : bool :=
  match kind m with
  | Elementwise j _ => bool_decide (iPoint < nPoint v /\ j < width (target m) v)
  | Batched vec =>
      bool_decide (width (target m) v = 0 \/
                   (iPoint < nPoint v /\ width (target m) v <= length vec))
  | Snapshot _ => bool_decide (width (target m) v = 0 \/ iPoint < nPoint v)
  end.

(** Two calls that do not interfere: they are on different nodes, or they
    assign to different members neither of which the other reads. *)
Definition independent (m1 : @mutator su2double) (i1 : Idx_t)
    (m2 : @mutator su2double) (i2 : Idx_t) : Prop :=
  i1 <> i2 \/
  (target m1 <> target m2 /\ source m1 <> Some (target m2) /\ source m2 <> Some (target m1)).

(** The calls [SetSolution_Geometry(iPoint, j, vec[j])] for the components
    of [vec], in order. *)
Definition componentwise (iPoint : Idx_t) (vec : list su2double) : list (Idx_t * mutator) :=
  imap (fun j x => (iPoint, M_SetSolution_Geometry j x)) vec.
End Views.

(** * Properties *)

(** ** The error monad and the loop *)

Lemma bind_ok_inv {A B : Type} (r : res A) (k : A -> res B) (b : B) :
  bind r k = Ok b -> exists a, r = Ok a /\ k a = Ok b.
Proof. destruct r as [a|e]; simpl; [eauto | discriminate]. Qed.

Lemma for_range_invariant {St : Type} (P : St -> Prop) (body : nat -> St -> res St) :
  (forall j s s', P s -> body j s = Ok s' -> P s') ->
  forall n lo s s', P s -> for_range lo n body s = Ok s' -> P s'.
Proof.
  intros Hbody n. induction n as [|n IH]; intros lo s s' Hs Hrun; simpl in Hrun.
  - by injection Hrun as <-.
  - apply bind_ok_inv in Hrun as (s1 & H1 & Hrest). eauto.
Qed.

(** ** Matrices *)

Section MatrixFacts.
Context {T : Type}.
Implicit Types (m : Mat_t T) (r : list T).

Lemma mat_shapeb_spec n w m : mat_shapeb n w m = true <-> mat_shape n w m.
Proof.
  unfold mat_shapeb, mat_shape. rewrite andb_true_iff, Nat.eqb_eq, forallb_forall.
  split; intros [Hn Hr]; split; try done.
  - intros i r Hi. apply Nat.eqb_eq, Hr, list_elem_of_In.
    by eapply list_elem_of_lookup_2.
  - intros r Hin. apply Nat.eqb_eq. apply list_elem_of_In, list_elem_of_lookup in Hin as [i Hi].
    by eapply Hr.
Qed.

Lemma mat_get_ok n w m i j :
  mat_shape n w m -> i < n -> j < w -> exists x, mat_get m i j = Ok x.
Proof.
  intros [Hn Hr] Hi Hj. unfold mat_get.
  destruct (lookup_lt_is_Some_2 (m : list (list T)) i) as [r Hri]; [lia|].
  rewrite Hri. destruct (lookup_lt_is_Some_2 r j) as [x Hx].
  - by rewrite (Hr _ _ Hri).
  - rewrite Hx. eauto.
Qed.

Lemma mat_get_fail n w m i j :
  mat_shape n w m -> n <= i \/ w <= j -> mat_get m i j = Fail OutOfBounds.
Proof.
  intros [Hn Hr] Hij. unfold mat_get.
  destruct ((m : list (list T)) !! i) as [r|] eqn:Hri; [|done].
  destruct (r !! j) as [x|] eqn:Hx; [|done].
  apply lookup_lt_Some in Hx. pose proof (Hr _ _ Hri) as Hw.
  apply lookup_lt_Some in Hri. lia.
Qed.

Lemma mat_set_ok n w m i j x :
  mat_shape n w m -> i < n -> j < w -> exists m', mat_set m i j x = Ok m'.
Proof.
  intros [Hn Hr] Hi Hj. unfold mat_set.
  destruct (lookup_lt_is_Some_2 (m : list (list T)) i) as [r Hri]; [lia|].
  rewrite Hri. rewrite (Hr _ _ Hri). case_decide; [eauto|lia].
Qed.

Lemma mat_set_fail n w m i j x :
  mat_shape n w m -> n <= i \/ w <= j -> mat_set m i j x = Fail OutOfBounds.
Proof.
  intros [Hn Hr] Hij. unfold mat_set.
  destruct ((m : list (list T)) !! i) as [r|] eqn:Hri; [|done].
  case_decide as Hj; [|done]. pose proof (Hr _ _ Hri) as Hw.
  apply lookup_lt_Some in Hri. lia.
Qed.

Lemma mat_row_ok n w m i :
  mat_shape n w m -> i < n -> exists r, mat_row m i = Ok r /\ length r = w.
Proof.
  intros [Hn Hr] Hi. unfold mat_row.
  destruct (lookup_lt_is_Some_2 (m : list (list T)) i) as [r Hri]; [lia|].
  rewrite Hri. eauto.
Qed.

Lemma mat_row_fail n w m i :
  mat_shape n w m -> n <= i -> mat_row m i = Fail OutOfBounds.
Proof.
  intros [Hn Hr] Hi. unfold mat_row.
  destruct ((m : list (list T)) !! i) as [r|] eqn:Hri; [|done].
  apply lookup_lt_Some in Hri. lia.
Qed.

Lemma mat_shape_insert n w m i r :
  mat_shape n w m -> length r = w -> mat_shape n w (<[i := r]> (m : list (list T))).
Proof.
  intros [Hn Hr] Hlen. split; [by rewrite length_insert|].
  intros k r' Hk. destruct (decide (i = k)) as [->|Hne].
  - rewrite list_lookup_insert_eq in Hk; [congruence|].
    apply lookup_lt_Some in Hk. by rewrite length_insert in Hk.
  - rewrite list_lookup_insert_ne in Hk by done. eauto.
Qed.

Lemma mat_set_inv m i j x m' :
  mat_set m i j x = Ok m' ->
  exists r, (m : list (list T)) !! i = Some r /\ j < length r /\
            m' = <[i := <[j := x]> r]> (m : list (list T)).
Proof.
  unfold mat_set. destruct ((m : list (list T)) !! i) as [r|]; [|done].
  case_decide; [|done]. intros [= <-]. eauto.
Qed.
End MatrixFacts.

(** ** The object state *)

Section ClassFacts.
Context {su2double : Type}.
Implicit Types (v : CDiscAdjVariable su2double) (f g : field) (x : su2double).

Lemma get_set_field_eq f m v : get_field f (set_field f m v) = m.
Proof. by destruct f. Qed.

Lemma get_set_field_ne f g m v : f <> g -> get_field g (set_field f m v) = get_field g v.
Proof. by destruct f, g. Qed.

Lemma width_set_field f g m v : width g (set_field f m v) = width g v.
Proof. done. Qed.

Lemma in_all_fields f : In f all_fields.
Proof. destruct f; simpl; tauto. Qed.

Lemma wf_field v f : wf v -> mat_shape (nPoint v) (width f v) (get_field f v).
Proof.
  unfold wf, wfb. rewrite forallb_forall. intros H.
  apply mat_shapeb_spec, H, in_all_fields.
Qed.

Lemma wf_intro v :
  (forall f, mat_shape (nPoint v) (width f v) (get_field f v)) -> wf v.
Proof.
  intros H. unfold wf, wfb. rewrite forallb_forall. intros f _.
  apply mat_shapeb_spec, H.
Qed.

Lemma modifies_only_refl f i v : modifies_only f i v v.
Proof. by repeat split. Qed.

Lemma modifies_only_trans f i v1 v2 v3 :
  modifies_only f i v1 v2 -> modifies_only f i v2 v3 -> modifies_only f i v1 v3.
Proof.
  intros (Hp & Hd & Hv & Ho & Hr & Hw) (Hp' & Hd' & Hv' & Ho' & Hr' & Hw').
  repeat split; try congruence; [| |by auto].
  - intros g Hg. by rewrite Ho', Ho.
  - intros k Hk. by rewrite Hr', Hr.
Qed.

Lemma modifies_only_width f i v v' g : modifies_only f i v v' -> width g v' = width g v.
Proof. intros (Hp & Hd & Hv & _). unfold width. by rewrite Hd, Hv. Qed.

Lemma fetch_frame f i v v' g k c :
  modifies_only f i v v' -> g <> f \/ k <> i -> fetch g k c v' = fetch g k c v.
Proof.
  intros (_ & _ & _ & Ho & Hr & _) Hgk. unfold fetch.
  destruct (decide (g = f)) as [->|Hne].
  - destruct Hgk as [?|Hk]; [done|]. unfold mat_get. by rewrite (Hr _ Hk).
  - by rewrite (Ho _ Hne).
Qed.

Lemma fetch_ok f i j v :
  wf v -> i < nPoint v -> j < width f v -> exists x, fetch f i j v = Ok x.
Proof. intros Hw. apply mat_get_ok. by apply wf_field. Qed.

Lemma fetch_fail f i j v :
  wf v -> nPoint v <= i \/ width f v <= j -> fetch f i j v = Fail OutOfBounds.
Proof. intros Hw. apply mat_get_fail. by apply wf_field. Qed.

Lemma assign_inv f i j x v v' :
  assign f i j x v = Ok v' ->
  exists r, (get_field f v : list (list su2double)) !! i = Some r /\ j < length r /\
    v' = set_field f (<[i := <[j := x]> r]> (get_field f v : list (list su2double))) v.
Proof.
  unfold assign. intros H. apply bind_ok_inv in H as (m & Hm & [= <-]).
  apply mat_set_inv in Hm as (r & Hr & Hj & ->). eauto.
Qed.

Lemma assign_modifies_only f i j x v v' :
  assign f i j x v = Ok v' -> modifies_only f i v v'.
Proof.
  intros H. apply assign_inv in H as (r & Hr & Hj & ->).
  repeat split; try done.
  - intros g Hg. by apply get_set_field_ne.
  - intros k Hk. rewrite get_set_field_eq. by apply list_lookup_insert_ne.
  - intros Hw. apply wf_intro. intros g.
    set (m := <[i := <[j := x]> r]> (get_field f v : list (list su2double))).
    change (mat_shape (nPoint v) (width g v) (get_field g (set_field f m v))).
    destruct (decide (f = g)) as [<-|Hne].
    + rewrite get_set_field_eq. apply mat_shape_insert; [by apply wf_field|].
      rewrite length_insert. by eapply (wf_field v f Hw).
    + rewrite get_set_field_ne by done. by apply wf_field.
Qed.

Lemma assign_fetch_eq f i j x v v' : assign f i j x v = Ok v' -> fetch f i j v' = Ok x.
Proof.
  intros H. apply assign_inv in H as (r & Hr & Hj & ->).
  unfold fetch, mat_get. rewrite get_set_field_eq.
  rewrite list_lookup_insert_eq by (by eapply lookup_lt_Some).
  by rewrite list_lookup_insert_eq.
Qed.

Lemma assign_fetch_ne f i j j' x v v' :
  assign f i j x v = Ok v' -> j' <> j -> fetch f i j' v' = fetch f i j' v.
Proof.
  intros H Hne. apply assign_inv in H as (r & Hr & Hj & ->).
  unfold fetch, mat_get. rewrite get_set_field_eq.
  rewrite list_lookup_insert_eq by (by eapply lookup_lt_Some).
  rewrite Hr. by rewrite list_lookup_insert_ne.
Qed.

Lemma assign_ok f i j x v :
  wf v -> i < nPoint v -> j < width f v -> exists v', assign f i j x v = Ok v'.
Proof.
  intros Hw Hi Hj. unfold assign.
  destruct (mat_set_ok _ _ _ i j x (wf_field v f Hw) Hi Hj) as [m ->]. simpl. eauto.
Qed.

Lemma assign_fail f i j x v :
  wf v -> nPoint v <= i \/ width f v <= j -> assign f i j x v = Fail OutOfBounds.
Proof.
  intros Hw Hij. unfold assign. by rewrite (mat_set_fail _ _ _ i j x (wf_field v f Hw) Hij).
Qed.
End ClassFacts.

(** ** The row-copy loops

    Every loop of the class has the shape
    [for (j = 0; j < n; j++) F(iPoint,j) = src(j)], where [src(j)] reads
    the caller's vector or another member. *)

Section Loops.
Context {su2double : Type}.
Implicit Types (v : CDiscAdjVariable su2double) (f g : field) (x : su2double).
Variables (f : field) (i : nat).
Variable src : nat -> CDiscAdjVariable su2double -> res su2double.

#[local] Abbreviation body := (fun j v => let* x := src j v in assign f i j x v).

Lemma loop_modifies_only n lo v v' :
  for_range lo n body v = Ok v' -> modifies_only f i v v'.
Proof.
  apply (for_range_invariant (modifies_only f i v)); [|apply modifies_only_refl].
  intros j s s' Hs Hb. apply bind_ok_inv in Hb as (x & _ & Ha).
  eapply modifies_only_trans; [done|]. by eapply assign_modifies_only.
Qed.

Lemma loop_fail n lo v :
  wf v -> nPoint v <= i -> 0 < n -> exists e, for_range lo n body v = Fail e.
Proof.
  intros Hw Hi Hn. destruct n as [|n]; [lia|]. simpl.
  destruct (src lo v) as [x|e]; simpl; [|eauto].
  rewrite assign_fail by auto. simpl. eauto.
Qed.

Hypothesis src_stable :
  forall j v v', modifies_only f i v v' -> src j v' = src j v.

Lemma loop_spec n : forall lo v,
  wf v -> i < nPoint v -> lo + n <= width f v ->
  (forall j, lo <= j < lo + n -> exists x, src j v = Ok x) ->
  exists v', for_range lo n body v = Ok v' /\ modifies_only f i v v' /\
    (forall j, lo <= j < lo + n -> fetch f i j v' = src j v) /\
    (forall j, ~ (lo <= j < lo + n) -> fetch f i j v' = fetch f i j v).
Proof.
  induction n as [|n IH]; intros lo v Hw Hi Hn Hsrc.
  - exists v. repeat split; try done; try apply modifies_only_refl. intros j ?; lia.
  - destruct (Hsrc lo) as [x Hx]; [lia|].
    destruct (assign_ok f i lo x v Hw Hi) as [v1 Hv1]; [lia|].
    pose proof (assign_modifies_only _ _ _ _ _ _ Hv1) as Hm1.
    destruct (IH (S lo) v1) as (v' & Hrun & Hm & Hin & Hout).
    + by apply Hm1.
    + destruct Hm1 as (-> & _). done.
    + rewrite (modifies_only_width _ _ _ _ f Hm1). lia.
    + intros j Hj. rewrite (src_stable _ _ _ Hm1). apply Hsrc. lia.
    + exists v'. split; [|split; [|split]].
      * simpl. rewrite Hx. simpl. by rewrite Hv1.
      * by eapply modifies_only_trans.
      * intros j Hj. destruct (decide (j = lo)) as [->|Hne].
        -- rewrite Hout by lia. rewrite Hx. by eapply assign_fetch_eq.
        -- rewrite Hin by lia. by apply src_stable.
      * intros j Hj. rewrite Hout by lia. eapply assign_fetch_ne; [done|lia].
Qed.
End Loops.

(** ** Calls and call sequences *)

Section Calls.
Context {su2double : Type}.
Implicit Types (v : CDiscAdjVariable su2double) (f g : field) (x : su2double).
Implicit Types (m : @mutator su2double) (p : list su2double).

(** A snapshot operation: row [i] of [dst] becomes row [i] of [from]. *)
Lemma snapshot_spec dst from i v :
  dst <> from -> axis_of dst = axis_of from -> wf v -> i < nPoint v ->
  exists v',
    for_loop (width dst v)
      (fun j v => let* x := fetch from i j v in assign dst i j x v) v = Ok v' /\
    modifies_only dst i v v' /\
    (forall j, j < width dst v ->
       exists x, fetch from i j v = Ok x /\ fetch dst i j v' = Ok x).
Proof.
  intros Hne Hax Hw Hi.
  assert (Hst : forall j (v1 v2 : CDiscAdjVariable su2double),
            modifies_only dst i v1 v2 -> fetch from i j v2 = fetch from i j v1).
  { intros j v1 v2 Hm. eapply fetch_frame; [done|]. left. congruence. }
  destruct (loop_spec dst i (fetch from i) Hst (width dst v) 0 v)
    as (v' & Hrun & Hm & Hin & _); try done.
  - intros j Hj. apply fetch_ok; [done..|]. unfold width in *. rewrite <- Hax. lia.
  - exists v'. split; [exact Hrun|]. split; [exact Hm|]. intros j Hj.
    destruct (fetch_ok from i j v) as [x Hx]; [done..| |].
    + unfold width in *. rewrite <- Hax. lia.
    + exists x. split; [done|]. rewrite Hin by lia. done.
Qed.

(** A batched set from a vector that is long enough. *)
Lemma vector_set_spec f i p v :
  wf v -> i < nPoint v -> width f v <= length p ->
  exists v',
    for_loop (width f v)
      (fun j v => let* x := deref p j in assign f i j x v) v = Ok v' /\
    modifies_only f i v v' /\
    (forall j, j < width f v -> exists x, p !! j = Some x /\ fetch f i j v' = Ok x).
Proof.
  intros Hw Hi Hlen.
  assert (Hp : forall j, j < width f v -> exists x, p !! j = Some x).
  { intros j Hj. apply lookup_lt_is_Some_2. lia. }
  destruct (loop_spec f i (fun j (_ : CDiscAdjVariable su2double) => deref p j)
              (fun _ _ _ _ => eq_refl) (width f v) 0 v)
    as (v' & Hrun & Hm & Hin & _); try done.
  - intros j Hj. destruct (Hp j) as [x Hx]; [lia|]. exists x. unfold deref. by rewrite Hx.
  - exists v'. split; [exact Hrun|]. split; [exact Hm|]. intros j Hj.
    destruct (Hp j Hj) as [x Hx]. exists x. split; [done|].
    rewrite Hin by lia. unfold deref. by rewrite Hx.
Qed.

(** A loop that ran to its end read every [src j] it was asked for. *)
Lemma vector_loop_reads f i p n : forall lo v v',
  for_range lo n (fun j v => let* x := deref p j in assign f i j x v) v = Ok v' ->
  lo + n <= length p \/ n = 0.
Proof.
  induction n as [|n IH]; intros lo v v' Hrun; [by right|left].
  simpl in Hrun. apply bind_ok_inv in Hrun as (v1 & Hb & Hrest).
  apply bind_ok_inv in Hb as (x & Hx & _).
  unfold deref in Hx. destruct (p !! lo) eqn:Hlo; [|done].
  apply lookup_lt_Some in Hlo. apply IH in Hrest. lia.
Qed.

Lemma call_modifies_only m i v v' :
  call m i v = Ok v' -> modifies_only (target m) i v v'.
Proof.
  destruct m; simpl; try apply assign_modifies_only;
    unfold SetSolution_Direct, SetGeometry_Direct, SetSolution_Geometry_vec,
      Set_OldSolution_Geometry, Set_BGSSolution_k, Set_BGSSolution_Geometry, for_loop.
  - apply (loop_modifies_only F_Solution_Direct i (fun j _ => deref _ j)).
  - apply (loop_modifies_only F_Geometry_Direct i (fun j _ => deref _ j)).
  - apply (loop_modifies_only F_Solution_Geometry i (fun j _ => deref _ j)).
  - apply (loop_modifies_only F_Solution_Geometry_Old i (fetch F_Solution_Geometry i)).
  - apply (loop_modifies_only F_Solution_BGS_k i (fetch F_Solution_BGS i)).
  - apply (loop_modifies_only F_Solution_Geometry_BGS_k i (fetch F_Solution_Geometry i)).
Qed.

(** Row [i] of member [f] after a call on node [k] that is not a call on
    [i] assigning to [f]. *)
Lemma call_row_kept m k v v' f i :
  call m k v = Ok v' -> touches f i (k, m) = false ->
  (get_field f v' : list (list su2double)) !! i = (get_field f v : list (list su2double)) !! i.
Proof.
  intros Hc Ht. apply call_modifies_only in Hc as (_ & _ & _ & Ho & Hr & _).
  unfold touches in Ht. simpl in Ht. apply andb_false_iff in Ht as [Ht|Ht].
  - apply bool_decide_eq_false in Ht. destruct (decide (f = target m)) as [->|Hne].
    + apply Hr. congruence.
    + by rewrite Ho.
  - apply bool_decide_eq_false in Ht. rewrite Ho; [done|congruence].
Qed.

Lemma run_kept calls : forall v v' f i,
  run calls v = Ok v' -> never_touched f i calls = true ->
  nPoint v' = nPoint v /\ nDim v' = nDim v /\ nVar v' = nVar v /\ (wf v -> wf v') /\
  (get_field f v' : list (list su2double)) !! i = (get_field f v : list (list su2double)) !! i.
Proof.
  induction calls as [|[k m] rest IH]; intros v v' f i Hrun Hnt; simpl in Hrun.
  - injection Hrun as <-. done.
  - apply bind_ok_inv in Hrun as (v1 & Hc & Hrest).
    simpl in Hnt. apply andb_true_iff in Hnt as [Hk Hnt]. apply negb_true_iff in Hk.
    destruct (IH _ _ _ _ Hrest Hnt) as (Hp & Hd & Hv & Hw & Hrow).
    pose proof (call_row_kept _ _ _ _ _ _ Hc Hk) as Hrow1.
    apply call_modifies_only in Hc as (Hp1 & Hd1 & Hv1 & _ & _ & Hw1).
    repeat split; try congruence. auto.
Qed.

Lemma run_wf calls : forall v v', run calls v = Ok v' -> wf v -> wf v'.
Proof.
  induction calls as [|[k m] rest IH]; intros v v' Hrun Hw; simpl in Hrun.
  - by injection Hrun as <-.
  - apply bind_ok_inv in Hrun as (v1 & Hc & Hrest).
    apply (IH _ _ Hrest). by apply (call_modifies_only _ _ _ _ Hc).
Qed.

(** The only call that assigns to [Solution_BGS] is [Set_BGSSolution]. *)
Lemma touches_Solution_BGS i k m :
  touches F_Solution_BGS i (k, m) = true <->
  k = i /\ exists iDim val, m = M_Set_BGSSolution iDim val.
Proof.
  unfold touches. simpl. rewrite andb_true_iff, !bool_decide_eq_true.
  split; intros [Hk Hm]; (split; [done|]).
  - destruct m; try done. eauto.
  - by destruct Hm as (iDim & val & ->).
Qed.

(** The only call that assigns to a snapshot member is its snapshot
    operation. *)
Lemma touches_snapshot i k m :
  (touches F_Solution_BGS_k i (k, m) = true <-> k = i /\ m = M_Set_BGSSolution_k) /\
  (touches F_Solution_Geometry_Old i (k, m) = true <->
     k = i /\ m = M_Set_OldSolution_Geometry) /\
  (touches F_Solution_Geometry_BGS_k i (k, m) = true <->
     k = i /\ m = M_Set_BGSSolution_Geometry).
Proof.
  unfold touches. simpl. rewrite !andb_true_iff, !bool_decide_eq_true.
  split; [|split]; (split; intros [Hk Hm]; (split; [exact Hk|]);
    first [by subst m | by destruct m]).
Qed.
End Calls.

(** * The claims *)

Section Claims.
Context {su2double : Type}.
Implicit Types (v : CDiscAdjVariable su2double) (f g : field).
Implicit Types (val der : su2double) (iPoint iVar iDim : nat).

(** Writing an entry and reading it back, for any member. *)
Lemma assign_then_fetch f iPoint j val v :
  wf v -> iPoint < nPoint v -> j < width f v ->
  exists v', assign f iPoint j val v = Ok v' /\ fetch f iPoint j v' = Ok val.
Proof.
  intros Hw Hi Hj. destruct (assign_ok f iPoint j val v Hw Hi Hj) as [v' Hv'].
  exists v'. split; [done|]. by eapply assign_fetch_eq.
Qed.

(** A row whose entries are those of [p] is [p]. *)
Lemma row_of_entries f iPoint (p : list su2double) v :
  wf v -> iPoint < nPoint v -> length p = width f v ->
  (forall j, j < width f v -> exists x, p !! j = Some x /\ fetch f iPoint j v = Ok x) ->
  mat_row (get_field f v) iPoint = Ok p.
Proof.
  intros Hw Hi Hlen Hent.
  destruct (mat_row_ok _ _ _ iPoint (wf_field v f Hw) Hi) as (r & Hr & Hrl).
  rewrite Hr. f_equal. apply list_eq. intros j.
  destruct (decide (j < width f v)) as [Hj|Hj].
  - destruct (Hent j Hj) as (x & Hx & Hf). rewrite Hx.
    unfold mat_row in Hr. unfold fetch, mat_get in Hf.
    destruct ((get_field f v : list (list su2double)) !! iPoint) as [r'|]; [|done].
    injection Hr as ->. by destruct (r !! j) as [y|]; [injection Hf as ->|].
  - rewrite !lookup_ge_None_2 by lia. done.
Qed.

Lemma bgs_writes_keep_k ws : forall v v',
  run (bgs_writes ws) v = Ok v' -> Solution_BGS_k v' = Solution_BGS_k v.
Proof.
  induction ws as [|[[k j] x] ws IH]; intros v v' Hrun; simpl in Hrun.
  - by injection Hrun as <-.
  - apply bind_ok_inv in Hrun as (v1 & Hc & Hrest). rewrite (IH _ _ Hrest).
    apply assign_modifies_only in Hc as (_ & _ & _ & Ho & _).
    by apply (Ho F_Solution_BGS_k).
Qed.

(** C1. For a node [iPoint < N], [Set_BGSSolution_k(iPoint)] returns, and
    right afterwards every component [iVar < nVar] of the
    previous-subiteration snapshot equals the same component of the
    current BGS solution, which the call left as it was.  Later
    [Set_BGSSolution] writes, to any entries and however many, leave every
    snapshot value as the snapshot call left it. *)
Theorem Set_BGSSolution_k_exact_copy v iPoint :
  wf v -> iPoint < nPoint v ->
  exists v', Set_BGSSolution_k iPoint v = Ok v' /\
    (forall iVar, iVar < nVar v ->
       exists x, Get_BGSSolution iPoint iVar v = Ok x /\
                 Get_BGSSolution iPoint iVar v' = Ok x /\
                 Get_BGSSolution_k iPoint iVar v' = Ok x) /\
    (forall ws v'', run (bgs_writes ws) v' = Ok v'' ->
       forall k iVar, Get_BGSSolution_k k iVar v'' = Get_BGSSolution_k k iVar v').
Proof.
  intros Hw Hi.
  destruct (snapshot_spec F_Solution_BGS_k F_Solution_BGS iPoint v)
    as (v' & Hrun & Hm & Hcopy); try done.
  exists v'. split; [exact Hrun|]. split.
  - intros iVar Hv. destruct (Hcopy iVar Hv) as (x & Hsrc & Hdst).
    exists x. split; [done|]. split; [|done].
    unfold Get_BGSSolution. rewrite (fetch_frame _ _ _ _ _ _ _ Hm); [done|by left].
  - intros ws v'' Hws k iVar. unfold Get_BGSSolution_k, fetch. simpl.
    by rewrite (bgs_writes_keep_k _ _ _ Hws).
Qed.

(** C2. For every member that has a setter taking a value, every valid
    (node, component) and every value, in any state of the store, the
    setter followed by the getter on the same entry returns that value:
    the eight element-wise setters, and the three batched setters, whose
    vector is read back component by component (and as a whole row where
    the class has a row getter). *)
Theorem set_then_get v iPoint :
  wf v -> iPoint < nPoint v ->
  (forall iDim val, iDim < nDim v ->
     (exists v', SetSensitivity iPoint iDim val v = Ok v' /\
                 GetSensitivity iPoint iDim v' = Ok val) /\
     (exists v', SetSolution_Geometry iPoint iDim val v = Ok v' /\
                 GetSolution_Geometry iPoint iDim v' = Ok val) /\
     (exists v', SetGeometry_CrossTerm_Derivative iPoint iDim val v = Ok v' /\
                 GetGeometry_CrossTerm_Derivative iPoint iDim v' = Ok val) /\
     (exists v', SetGeometry_CrossTerm_Derivative_Flow iPoint iDim val v = Ok v' /\
                 GetGeometry_CrossTerm_Derivative_Flow iPoint iDim v' = Ok val)) /\
  (forall iVar val, iVar < nVar v ->
     (exists v', SetDual_Time_Derivative iPoint iVar val v = Ok v' /\
                 GetDual_Time_Derivative iPoint iVar v' = Ok val) /\
     (exists v', SetDual_Time_Derivative_n iPoint iVar val v = Ok v' /\
                 GetDual_Time_Derivative_n iPoint iVar v' = Ok val) /\
     (exists v', Set_BGSSolution iPoint iVar val v = Ok v' /\
                 Get_BGSSolution iPoint iVar v' = Ok val) /\
     (exists v', SetCross_Term_Derivative iPoint iVar val v = Ok v' /\
                 GetCross_Term_Derivative iPoint iVar v' = Ok val)) /\
  (forall vec : list su2double, length vec = nVar v ->
     exists v', SetSolution_Direct iPoint vec v = Ok v' /\
                GetSolution_Direct iPoint v' = Ok vec) /\
  (forall vec : list su2double, length vec = nDim v ->
     (exists v', SetGeometry_Direct iPoint vec v = Ok v' /\
                 GetGeometry_Direct_row iPoint v' = Ok vec /\
                 forall iDim x, vec !! iDim = Some x ->
                                GetGeometry_Direct iPoint iDim v' = Ok x) /\
     (exists v', SetSolution_Geometry_vec iPoint vec v = Ok v' /\
                 forall iDim x, vec !! iDim = Some x ->
                                GetSolution_Geometry iPoint iDim v' = Ok x)).
Proof.
  intros Hw Hi. split; [|split; [|split]].
  - intros iDim val Hd. repeat split.
    + by apply (assign_then_fetch F_Sensitivity).
    + by apply (assign_then_fetch F_Solution_Geometry).
    + by apply (assign_then_fetch F_Geometry_CrossTerm_Derivative).
    + by apply (assign_then_fetch F_Geometry_CrossTerm_Derivative_Flow).
  - intros iVar val Hv. repeat split.
    + by apply (assign_then_fetch F_DualTime_Derivative).
    + by apply (assign_then_fetch F_DualTime_Derivative_n).
    + by apply (assign_then_fetch F_Solution_BGS).
    + by apply (assign_then_fetch F_Cross_Term_Derivative).
  - intros vec Hlen.
    destruct (vector_set_spec F_Solution_Direct iPoint vec v)
      as (v' & Hrun & Hm & Hent); [done..|by rewrite Hlen|].
    exists v'. split; [exact Hrun|].
    apply (row_of_entries F_Solution_Direct).
    + by apply Hm.
    + by destruct Hm as (-> & _).
    + by rewrite (modifies_only_width _ _ _ _ _ Hm).
    + intros j Hj. apply Hent. by rewrite <- (modifies_only_width _ _ _ _ _ Hm).
  - intros vec Hlen. split.
    + destruct (vector_set_spec F_Geometry_Direct iPoint vec v)
        as (v' & Hrun & Hm & Hent); [done..|by rewrite Hlen|].
      exists v'. split; [exact Hrun|]. split.
      * apply (row_of_entries F_Geometry_Direct).
        -- by apply Hm.
        -- by destruct Hm as (-> & _).
        -- by rewrite (modifies_only_width _ _ _ _ _ Hm).
        -- intros j Hj. apply Hent. by rewrite <- (modifies_only_width _ _ _ _ _ Hm).
      * intros iDim x Hx. destruct (Hent iDim) as (y & Hy & Hf).
        -- apply lookup_lt_Some in Hx. change (width F_Geometry_Direct v) with (nDim v). lia.
        -- rewrite Hx in Hy. by injection Hy as <-.
    + destruct (vector_set_spec F_Solution_Geometry iPoint vec v)
        as (v' & Hrun & Hm & Hent); [done..|by rewrite Hlen|].
      exists v'. split; [exact Hrun|].
      intros iDim x Hx. destruct (Hent iDim) as (y & Hy & Hf).
      * apply lookup_lt_Some in Hx. change (width F_Solution_Geometry v) with (nDim v). lia.
      * rewrite Hx in Hy. by injection Hy as <-.
Qed.

(** C3. [SetDual_Time_Derivative] and [SetDual_Time_Derivative_n] each
    overwrite their own entry and leave the other matrix as it was.  So
    the roll-over (copy the current value into the [_n] slot, then set a
    new current value) leaves in the [_n] slot the value the current slot
    held before the roll-over, whatever the new current value is. *)
Theorem dual_time_slots_independent v iPoint iVar :
  wf v -> iPoint < nPoint v -> iVar < nVar v ->
  (forall der, exists v',
     SetDual_Time_Derivative iPoint iVar der v = Ok v' /\
     DualTime_Derivative_n v' = DualTime_Derivative_n v) /\
  (forall der, exists v',
     SetDual_Time_Derivative_n iPoint iVar der v = Ok v' /\
     DualTime_Derivative v' = DualTime_Derivative v) /\
  (forall new, exists old v1 v2,
     GetDual_Time_Derivative iPoint iVar v = Ok old /\
     SetDual_Time_Derivative_n iPoint iVar old v = Ok v1 /\
     SetDual_Time_Derivative iPoint iVar new v1 = Ok v2 /\
     GetDual_Time_Derivative_n iPoint iVar v2 = Ok old /\
     GetDual_Time_Derivative iPoint iVar v2 = Ok new).
Proof.
  intros Hw Hi Hv. split; [|split].
  - intros der.
    destruct (assign_ok F_DualTime_Derivative iPoint iVar der v) as [v' Hv']; [done..|].
    exists v'. split; [done|].
    apply assign_modifies_only in Hv' as (_ & _ & _ & Ho & _).
    by apply (Ho F_DualTime_Derivative_n).
  - intros der.
    destruct (assign_ok F_DualTime_Derivative_n iPoint iVar der v) as [v' Hv']; [done..|].
    exists v'. split; [done|].
    apply assign_modifies_only in Hv' as (_ & _ & _ & Ho & _).
    by apply (Ho F_DualTime_Derivative).
  - intros new.
    destruct (fetch_ok F_DualTime_Derivative iPoint iVar v) as [old Hold]; [done..|].
    destruct (assign_then_fetch F_DualTime_Derivative_n iPoint iVar old v)
      as (v1 & Hv1 & Hget1); [done..|].
    pose proof (assign_modifies_only _ _ _ _ _ _ Hv1) as Hm1.
    destruct (assign_then_fetch F_DualTime_Derivative iPoint iVar new v1)
      as (v2 & Hv2 & Hget2).
    { by apply Hm1. }
    { by destruct Hm1 as (-> & _). }
    { by rewrite (modifies_only_width _ _ _ _ _ Hm1). }
    exists old, v1, v2. repeat split; try done.
    unfold GetDual_Time_Derivative_n.
    rewrite (fetch_frame _ _ _ _ _ _ _ (assign_modifies_only _ _ _ _ _ _ Hv2)); [done|by left].
Qed.

(** C4. For a node [iPoint < N], [Set_BGSSolution_Geometry(iPoint)]
    copies the [nDim] components of the live [Solution_Geometry] into
    [Solution_Geometry_BGS_k], and [Set_OldSolution_Geometry(iPoint)]
    copies the same live row into [Solution_Geometry_Old].  Each of the
    two leaves the live matrix and the other one's snapshot matrix as
    they were, for whatever node it is called. *)
Theorem geometry_snapshots_disjoint v iPoint :
  wf v -> iPoint < nPoint v ->
  (exists v', Set_BGSSolution_Geometry iPoint v = Ok v' /\
     forall iDim, iDim < nDim v ->
       exists x, GetSolution_Geometry iPoint iDim v = Ok x /\
                 Get_BGSSolution_Geometry iPoint iDim v' = Ok x) /\
  (exists v', Set_OldSolution_Geometry iPoint v = Ok v' /\
     forall iDim, iDim < nDim v ->
       exists x, GetSolution_Geometry iPoint iDim v = Ok x /\
                 Get_OldSolution_Geometry iPoint iDim v' = Ok x) /\
  (forall k v', Set_BGSSolution_Geometry k v = Ok v' ->
     Solution_Geometry_Old v' = Solution_Geometry_Old v /\
     Solution_Geometry v' = Solution_Geometry v) /\
  (forall k v', Set_OldSolution_Geometry k v = Ok v' ->
     Solution_Geometry_BGS_k v' = Solution_Geometry_BGS_k v /\
     Solution_Geometry v' = Solution_Geometry v).
Proof.
  intros Hw Hi. split; [|split; [|split]].
  - destruct (snapshot_spec F_Solution_Geometry_BGS_k F_Solution_Geometry iPoint v)
      as (v' & Hrun & _ & Hcopy); try done.
    exists v'. split; [exact Hrun|exact Hcopy].
  - destruct (snapshot_spec F_Solution_Geometry_Old F_Solution_Geometry iPoint v)
      as (v' & Hrun & _ & Hcopy); try done.
    exists v'. split; [exact Hrun|exact Hcopy].
  - intros k v' Hc.
    apply (call_modifies_only M_Set_BGSSolution_Geometry) in Hc as (_ & _ & _ & Ho & _).
    split; [by apply (Ho F_Solution_Geometry_Old)|by apply (Ho F_Solution_Geometry)].
  - intros k v' Hc.
    apply (call_modifies_only M_Set_OldSolution_Geometry) in Hc as (_ & _ & _ & Ho & _).
    split; [by apply (Ho F_Solution_Geometry_BGS_k)|by apply (Ho F_Solution_Geometry)].
Qed.

(** C8. For a node [iPoint < N], two calls of
    [Set_OldSolution_Geometry(iPoint)] in a row both return, and every
    entry of [Solution_Geometry_Old] reads the same after the second call
    as after the first. *)
Theorem Set_OldSolution_Geometry_idempotent v iPoint :
  wf v -> iPoint < nPoint v ->
  exists v1 v2,
    Set_OldSolution_Geometry iPoint v = Ok v1 /\
    Set_OldSolution_Geometry iPoint v1 = Ok v2 /\
    forall k iDim, Get_OldSolution_Geometry k iDim v2 = Get_OldSolution_Geometry k iDim v1.
Proof.
  intros Hw Hi.
  destruct (snapshot_spec F_Solution_Geometry_Old F_Solution_Geometry iPoint v)
    as (v1 & Hrun1 & Hm1 & Hcopy1); try done.
  assert (Hw1 : wf v1) by by apply Hm1.
  assert (Hi1 : iPoint < nPoint v1) by by destruct Hm1 as (-> & _).
  destruct (snapshot_spec F_Solution_Geometry_Old F_Solution_Geometry iPoint v1)
    as (v2 & Hrun2 & Hm2 & Hcopy2); try done.
  exists v1, v2. split; [exact Hrun1|]. split; [exact Hrun2|].
  intros k iDim. unfold Get_OldSolution_Geometry.
  destruct (decide (k = iPoint)) as [->|Hk].
  - destruct (decide (iDim < nDim v)) as [Hd|Hd].
    + destruct (Hcopy1 iDim Hd) as (x & Hsrc & ->).
      destruct (Hcopy2 iDim) as (y & Hsrc2 & ->).
      * change (iDim < width F_Solution_Geometry_Old v1).
        by rewrite (modifies_only_width _ _ _ _ _ Hm1).
      * rewrite (fetch_frame _ _ _ _ _ _ _ Hm1) in Hsrc2 by by left. congruence.
    + assert (Hw2 : wf v2) by by apply Hm2.
      rewrite !fetch_fail; try done; right.
      * change (nDim v1 <= iDim). destruct Hm1 as (_ & -> & _). lia.
      * change (nDim v2 <= iDim). destruct Hm2 as (_ & -> & _).
        destruct Hm1 as (_ & -> & _). lia.
  - apply (fetch_frame _ _ _ _ _ _ _ Hm2). by right.
Qed.

(** C6. A setter or snapshot operation called on node [i], whatever its
    arguments, leaves the row of every other node [j] in every member as
    it was, and so every getter reads at [j] what it read before. *)
Theorem node_independence v (m : @mutator su2double) (i j : nat) v' :
  i <> j -> call m i v = Ok v' ->
  forall f,
    (get_field f v' : list (list su2double)) !! j =
      (get_field f v : list (list su2double)) !! j /\
    forall c, fetch f j c v' = fetch f j c v.
Proof.
  intros Hij Hc f.
  assert (Hrow : (get_field f v' : list (list su2double)) !! j =
                 (get_field f v : list (list su2double)) !! j).
  { eapply call_row_kept; [done|]. unfold touches. simpl.
    rewrite bool_decide_eq_false_2; done. }
  split; [done|]. intros c. unfold fetch, mat_get. by rewrite Hrow.
Qed.

(** C10. [Set_BGSSolution_k(iPoint)] copies from the member
    [Solution_BGS] and from nothing else: let [v0] be the object as
    constructed and let any calls follow, none of them a
    [Set_BGSSolution] on [iPoint]; then [Set_BGSSolution_k(iPoint)]
    returns, and every [Get_BGSSolution_k(iPoint, iVar)] is what
    [Solution_BGS] held at construction, whatever the calls wrote to the
    other members. *)
Theorem Set_BGSSolution_k_reads_Solution_BGS v0 calls v iPoint :
  wf v0 -> iPoint < nPoint v0 ->
  run calls v0 = Ok v -> never_touched F_Solution_BGS iPoint calls = true ->
  exists v', Set_BGSSolution_k iPoint v = Ok v' /\
    forall iVar, iVar < nVar v0 ->
      exists x, Get_BGSSolution iPoint iVar v0 = Ok x /\
                Get_BGSSolution_k iPoint iVar v' = Ok x.
Proof.
  intros Hw0 Hi Hrun Hnt.
  destruct (run_kept _ _ _ _ _ Hrun Hnt) as (Hp & _ & Hv & Hw & Hrow).
  destruct (snapshot_spec F_Solution_BGS_k F_Solution_BGS iPoint v)
    as (v' & Hsnap & _ & Hcopy); try done; [by auto|by rewrite Hp|].
  exists v'. split; [exact Hsnap|]. intros iVar HiVar.
  destruct (Hcopy iVar) as (x & Hsrc & Hdst).
  { change (iVar < nVar v). by rewrite Hv. }
  exists x. split; [|done].
  unfold Get_BGSSolution, fetch, mat_get. rewrite <- Hrow. exact Hsrc.
Qed.

Lemma alloc_ok zero (sol : list su2double) config npoint w f :
  (init_policy config f = InitFromSol -> w <= length sol) ->
  alloc zero sol npoint w (init_policy config f) =
    Ok (replicate npoint (baseline_vector zero sol config w f)).
Proof.
  intros Hsol. unfold alloc, baseline_row, baseline_vector.
  destruct (init_policy config f); [|done].
  rewrite decide_True by auto. done.
Qed.

Lemma baseline_vector_lookup zero (sol : list su2double) config w f c :
  (init_policy config f = InitFromSol -> w <= length sol) -> c < w ->
  baseline_vector zero sol config w f !! c = Some (baseline zero sol config f c).
Proof.
  intros Hsol Hc. unfold baseline_vector, baseline.
  destruct (init_policy config f).
  - rewrite lookup_take_lt by done.
    destruct (lookup_lt_is_Some_2 sol c) as [x ->]; [|done].
    specialize (Hsol eq_refl). lia.
  - by apply lookup_replicate_2.
Qed.

Lemma baseline_vector_length zero (sol : list su2double) config w f :
  (init_policy config f = InitFromSol -> w <= length sol) ->
  length (baseline_vector zero sol config w f) = w.
Proof.
  intros Hsol. unfold baseline_vector. destruct (init_policy config f).
  - apply length_take_le. auto.
  - apply length_replicate.
Qed.

Lemma alloc_shape zero (sol : list su2double) npoint w k m :
  alloc zero sol npoint w k = Ok m -> mat_shape npoint w m.
Proof.
  unfold alloc. intros H. apply bind_ok_inv in H as (row & Hrow & [= <-]).
  split; [apply length_replicate|].
  intros i r Hr. apply lookup_replicate_1 in Hr as [-> _].
  unfold baseline_row in Hrow. destruct k.
  - case_decide; [|done]. injection Hrow as <-. by apply length_take_le.
  - injection Hrow as <-. apply length_replicate.
Qed.

(** Whatever the constructor returns satisfies the class invariant, and so
    does every object reached from it by calls. *)
Lemma CDiscAdjVariable_new_wf zero (sol : list su2double) npoint ndim nvar config v0 :
  CDiscAdjVariable_new zero sol npoint ndim nvar config = Ok v0 -> wf v0.
Proof.
  unfold CDiscAdjVariable_new. cbv zeta. intros H.
  repeat (apply bind_ok_inv in H as (? & ?%alloc_shape & H)).
  injection H as <-. apply wf_intro. by intros [].
Qed.

Lemma reachable_wf zero (sol : list su2double) npoint ndim nvar config v0 calls v :
  CDiscAdjVariable_new zero sol npoint ndim nvar config = Ok v0 ->
  run calls v0 = Ok v -> wf v.
Proof. intros Hnew Hrun. eapply run_wf; [done|]. by eapply CDiscAdjVariable_new_wf. Qed.

(** C7. Construction with (initial value vector, N, nDim, nVar, config)
    returns an object in which every member has exactly N rows of the
    width of its axis, and in which every entry holds the baseline of its
    member: the component of the initial vector or zero.  A member's
    entries at a node still read as that baseline, without a fault, after
    any calls none of which assigns to that member at that node; for the
    snapshot members these are the call sequences in which the snapshot
    operation was never invoked for the node. *)
Theorem construction_baseline zero (sol : list su2double) npoint ndim nvar config :
  (forall f, init_policy config f = InitFromSol -> axis_width ndim nvar f <= length sol) ->
  exists v0, CDiscAdjVariable_new zero sol npoint ndim nvar config = Ok v0 /\
    nPoint v0 = npoint /\ nDim v0 = ndim /\ nVar v0 = nvar /\
    (forall f, mat_shape npoint (axis_width ndim nvar f) (get_field f v0)) /\
    (forall f calls v i c,
       run calls v0 = Ok v -> never_touched f i calls = true ->
       i < npoint -> c < axis_width ndim nvar f ->
       fetch f i c v = Ok (baseline zero sol config f c)).
Proof.
  intros Hsol. eexists. split.
  { unfold CDiscAdjVariable_new. cbv zeta. rewrite !alloc_ok by auto. simpl. reflexivity. }
  set (v0 := mkCDiscAdjVariable _ _ _ _ _ _ _ _ _ _ _ _ _ _ _ _).
  assert (Hget : forall f, get_field f v0 =
            replicate npoint (baseline_vector zero sol config (axis_width ndim nvar f) f)).
  { by intros []. }
  split; [done|]. split; [done|]. split; [done|]. split.
  - intros f. rewrite Hget. split; [apply length_replicate|].
    intros i r Hr. apply lookup_replicate_1 in Hr as [-> _].
    apply baseline_vector_length. auto.
  - intros f calls v i c Hrun Hnt Hi Hc.
    destruct (run_kept _ _ _ _ _ Hrun Hnt) as (_ & _ & _ & _ & Hrow).
    unfold fetch, mat_get. rewrite Hrow, Hget.
    rewrite lookup_replicate_2 by done.
    rewrite baseline_vector_lookup by auto. done.
Qed.

(** A snapshot operation on a node that does not exist faults at its
    first read, if its loop has an iteration. *)
Lemma snapshot_fail dst from iPoint v :
  wf v -> nPoint v <= iPoint -> 0 < width dst v ->
  for_loop (width dst v)
    (fun j v => let* x := fetch from iPoint j v in assign dst iPoint j x v) v =
  Fail OutOfBounds.
Proof.
  intros Hw Hi Hpos. unfold for_loop.
  destruct (width dst v) as [|n]; [lia|]. simpl.
  by rewrite fetch_fail by auto.
Qed.

(** A batched set on a node that does not exist faults in its first
    iteration, if there is one. *)
Lemma vector_set_fail f iPoint (vec : list su2double) v :
  wf v -> nPoint v <= iPoint -> 0 < width f v ->
  is_ok (for_loop (width f v)
           (fun j v => let* x := deref vec j in assign f iPoint j x v) v) = false.
Proof.
  intros Hw Hi Hpos.
  destruct (loop_fail f iPoint (fun j (_ : CDiscAdjVariable su2double) => deref vec j)
              (width f v) 0 v Hw Hi Hpos) as [e He].
  unfold for_loop. by rewrite He.
Qed.

(** C5, as amended.  Every element-wise getter and setter called with a
    node index [>= N] (so also with the index [N] itself) or with a
    component index [>=] the width of the member's axis faults with
    [OutOfBounds] and returns no value and no new state; so does a row
    getter called with a node index [>= N].  A batched setter or a
    snapshot setter ([Set_OldSolution_Geometry], [Set_BGSSolution_k],
    [Set_BGSSolution_Geometry]) called with a node index [>= N] faults
    when the member's width is positive, the snapshot setters with
    [OutOfBounds]; when the width is zero its loop body never runs and the
    call returns normally, with the object as it was. *)
Theorem out_of_range_access_faults v iPoint :
  wf v ->
  (forall iDim val, nPoint v <= iPoint \/ nDim v <= iDim ->
     SetSensitivity iPoint iDim val v = Fail OutOfBounds /\
     GetSensitivity iPoint iDim v = Fail OutOfBounds /\
     GetGeometry_Direct iPoint iDim v = Fail OutOfBounds /\
     GetSolution_Geometry iPoint iDim v = Fail OutOfBounds /\
     SetSolution_Geometry iPoint iDim val v = Fail OutOfBounds /\
     GetGeometry_CrossTerm_Derivative iPoint iDim v = Fail OutOfBounds /\
     SetGeometry_CrossTerm_Derivative iPoint iDim val v = Fail OutOfBounds /\
     GetGeometry_CrossTerm_Derivative_Flow iPoint iDim v = Fail OutOfBounds /\
     SetGeometry_CrossTerm_Derivative_Flow iPoint iDim val v = Fail OutOfBounds /\
     Get_OldSolution_Geometry iPoint iDim v = Fail OutOfBounds /\
     Get_BGSSolution_Geometry iPoint iDim v = Fail OutOfBounds) /\
  (forall iVar val, nPoint v <= iPoint \/ nVar v <= iVar ->
     SetDual_Time_Derivative iPoint iVar val v = Fail OutOfBounds /\
     SetDual_Time_Derivative_n iPoint iVar val v = Fail OutOfBounds /\
     GetDual_Time_Derivative iPoint iVar v = Fail OutOfBounds /\
     GetDual_Time_Derivative_n iPoint iVar v = Fail OutOfBounds /\
     Set_BGSSolution iPoint iVar val v = Fail OutOfBounds /\
     Get_BGSSolution iPoint iVar v = Fail OutOfBounds /\
     Get_BGSSolution_k iPoint iVar v = Fail OutOfBounds /\
     SetCross_Term_Derivative iPoint iVar val v = Fail OutOfBounds /\
     GetCross_Term_Derivative iPoint iVar v = Fail OutOfBounds) /\
  (nPoint v <= iPoint ->
     GetSolution_Direct iPoint v = Fail OutOfBounds /\
     GetGeometry_Direct_row iPoint v = Fail OutOfBounds /\
     forall vec : list su2double,
       (0 < nVar v -> is_ok (SetSolution_Direct iPoint vec v) = false) /\
       (0 < nDim v -> is_ok (SetGeometry_Direct iPoint vec v) = false /\
                      is_ok (SetSolution_Geometry_vec iPoint vec v) = false)) /\
  (forall vec : list su2double,
     (nVar v = 0 -> SetSolution_Direct iPoint vec v = Ok v) /\
     (nDim v = 0 -> SetGeometry_Direct iPoint vec v = Ok v /\
                    SetSolution_Geometry_vec iPoint vec v = Ok v)) /\
  (nPoint v <= iPoint ->
     (0 < nDim v -> Set_OldSolution_Geometry iPoint v = Fail OutOfBounds /\
                    Set_BGSSolution_Geometry iPoint v = Fail OutOfBounds) /\
     (0 < nVar v -> Set_BGSSolution_k iPoint v = Fail OutOfBounds)) /\
  ((nDim v = 0 -> Set_OldSolution_Geometry iPoint v = Ok v /\
                  Set_BGSSolution_Geometry iPoint v = Ok v) /\
   (nVar v = 0 -> Set_BGSSolution_k iPoint v = Ok v)).
Proof.
  intros Hw. split; [|split; [|split; [|split; [|split]]]].
  - intros iDim val Hout.
    repeat split; first [by apply assign_fail | by apply fetch_fail].
  - intros iVar val Hout.
    repeat split; first [by apply assign_fail | by apply fetch_fail].
  - intros Hi. split; [|split].
    + by apply (mat_row_fail _ _ _ _ (wf_field v F_Solution_Direct Hw)).
    + by apply (mat_row_fail _ _ _ _ (wf_field v F_Geometry_Direct Hw)).
    + intros vec. split; [|split].
      * by apply (vector_set_fail F_Solution_Direct).
      * by apply (vector_set_fail F_Geometry_Direct).
      * by apply (vector_set_fail F_Solution_Geometry).
  - intros vec. split; [|split].
    + intros H0. unfold SetSolution_Direct. by rewrite H0.
    + unfold SetGeometry_Direct. by rewrite H.
    + unfold SetSolution_Geometry_vec. by rewrite H.
  - intros Hi. split.
    + intros Hpos. split.
      * by apply (snapshot_fail F_Solution_Geometry_Old F_Solution_Geometry).
      * by apply (snapshot_fail F_Solution_Geometry_BGS_k F_Solution_Geometry).
    + intros Hpos. by apply (snapshot_fail F_Solution_BGS_k F_Solution_BGS).
  - split.
    + intros H0. unfold Set_OldSolution_Geometry, Set_BGSSolution_Geometry.
      by rewrite H0.
    + intros H0. unfold Set_BGSSolution_k. by rewrite H0.
Qed.

(** The entries of a row written from a vector that is at least as long
    as the row: the row is the vector's prefix. *)
Lemma vector_set_row f iPoint (vec : list su2double) v :
  wf v -> iPoint < nPoint v -> width f v <= length vec ->
  exists v',
    for_loop (width f v)
      (fun j v => let* x := deref vec j in assign f iPoint j x v) v = Ok v' /\
    mat_row (get_field f v') iPoint = Ok (take (width f v) vec) /\
    forall j x, j < width f v -> vec !! j = Some x -> fetch f iPoint j v' = Ok x.
Proof.
  intros Hw Hi Hlen.
  destruct (vector_set_spec f iPoint vec v) as (v' & Hrun & Hm & Hent); [done..|].
  exists v'. split; [exact Hrun|]. split.
  - apply row_of_entries.
    + by apply Hm.
    + by destruct Hm as (-> & _).
    + rewrite (modifies_only_width _ _ _ _ _ Hm). by apply length_take_le.
    + intros j Hj. rewrite (modifies_only_width _ _ _ _ _ Hm) in Hj.
      destruct (Hent j Hj) as (x & Hx & Hf). exists x.
      by rewrite lookup_take_lt.
  - intros j x Hj Hx. destruct (Hent j Hj) as (y & Hy & Hf). congruence.
Qed.

(** C9, as amended.  A batched vector set receives a bare pointer and
    checks no length.  Called on a node [< N] with a vector that has at
    least as many components as the member is wide, it returns and the
    row holds the first [nVar] (respectively [nDim]) components of the
    vector, the rest being ignored; in particular a vector that is too
    long is accepted.  (Nothing is said of a shorter vector, past whose
    end the loop would read.) *)
Theorem vector_set_stores_prefix v iPoint :
  wf v -> iPoint < nPoint v ->
  (forall vec : list su2double, nVar v <= length vec ->
     exists v', SetSolution_Direct iPoint vec v = Ok v' /\
                GetSolution_Direct iPoint v' = Ok (take (nVar v) vec)) /\
  (forall vec : list su2double, nDim v <= length vec ->
     (exists v', SetGeometry_Direct iPoint vec v = Ok v' /\
                 GetGeometry_Direct_row iPoint v' = Ok (take (nDim v) vec) /\
                 forall iDim x, iDim < nDim v -> vec !! iDim = Some x ->
                                GetGeometry_Direct iPoint iDim v' = Ok x) /\
     (exists v', SetSolution_Geometry_vec iPoint vec v = Ok v' /\
                 forall iDim x, iDim < nDim v -> vec !! iDim = Some x ->
                                GetSolution_Geometry iPoint iDim v' = Ok x)).
Proof.
  intros Hw Hi. split.
  - intros vec Hlen.
    destruct (vector_set_row F_Solution_Direct iPoint vec v) as (v' & Hrun & Hrow & _);
      [done..|].
    exists v'. by split.
  - intros vec Hlen. split.
    + destruct (vector_set_row F_Geometry_Direct iPoint vec v) as (v' & Hrun & Hrow & Hent);
        [done..|].
      exists v'. by repeat split.
    + destruct (vector_set_row F_Solution_Geometry iPoint vec v) as (v' & Hrun & _ & Hent);
        [done..|].
      exists v'. by split.
Qed.

(** In the embedding, a batched set from a vector shorter than the row
    stops at the fault [BufferOverrun], the read past the vector's end. *)
Lemma vector_set_short f iPoint (vec : list su2double) v :
  length vec < width f v ->
  is_ok (for_loop (width f v)
           (fun j v => let* x := deref vec j in assign f iPoint j x v) v) = false.
Proof.
  intros Hlen. unfold for_loop.
  destruct (for_range 0 (width f v) _ v) as [v'|e] eqn:Hrun; [|done].
  apply vector_loop_reads in Hrun. lia.
Qed.
End Claims.

(** * The claims on concrete objects *)

(** The sample object is what the constructor returns for two nodes, two
    dimensions, three variables and the all-zero policy. *)
Example demo_constructed :
  CDiscAdjVariable_new 0%Z [0; 0; 0]%Z 2 2 3 all_zero = Ok (demo 2 2 3).
Proof. reflexivity. Qed.

(** Scenario of the spec: current BGS solution of node 0 set to [1,2,3],
    snapshot, current solution set to [4,5,6]; the snapshot reads [1,2,3]
    and the current solution [4,5,6]. *)
Example bgs_snapshot_scenario :
  exists v1 v2 v3,
    run (bgs_writes [(0, 0, 1%Z); (0, 1, 2%Z); (0, 2, 3%Z)]) (demo 1 2 3) = Ok v1 /\
    Set_BGSSolution_k 0 v1 = Ok v2 /\
    run (bgs_writes [(0, 0, 4%Z); (0, 1, 5%Z); (0, 2, 6%Z)]) v2 = Ok v3 /\
    map (fun iVar => Get_BGSSolution_k 0 iVar v3) [0; 1; 2] = [Ok 1%Z; Ok 2%Z; Ok 3%Z] /\
    map (fun iVar => Get_BGSSolution 0 iVar v3) [0; 1; 2] = [Ok 4%Z; Ok 5%Z; Ok 6%Z].
Proof. do 3 eexists. repeat split; reflexivity. Qed.

(** Scenario of the spec: dual-time derivative of (0, 0) set to 10,
    roll-over, then set to 20; the [_n] slot reads 10, the current one 20. *)
Example dual_time_scenario :
  exists v1 old v2 v3,
    SetDual_Time_Derivative 0 0 10%Z (demo 1 2 3) = Ok v1 /\
    GetDual_Time_Derivative 0 0 v1 = Ok old /\
    SetDual_Time_Derivative_n 0 0 old v1 = Ok v2 /\
    SetDual_Time_Derivative 0 0 20%Z v2 = Ok v3 /\
    GetDual_Time_Derivative_n 0 0 v3 = Ok 10%Z /\
    GetDual_Time_Derivative 0 0 v3 = Ok 20%Z.
Proof. do 4 eexists. repeat split; reflexivity. Qed.

(** Scenario of the spec: N = 1, nDim = 2, nVar = 3, the two sensitivities
    of node 0 set (here to the integers 15 and -20, the value type being a
    parameter); they read back, another member is still all zero, and the
    node index 1 = N faults. *)
Example sensitivity_scenario :
  exists v1 v2,
    SetSensitivity 0 0 15%Z (demo 1 2 3) = Ok v1 /\
    SetSensitivity 0 1 (-20)%Z v1 = Ok v2 /\
    GetSensitivity 0 0 v2 = Ok 15%Z /\
    GetSensitivity 0 1 v2 = Ok (-20)%Z /\
    GetSensitivity 1 0 v2 = Fail OutOfBounds /\
    Solution_BGS v2 = Solution_BGS (demo 1 2 3).
Proof. do 2 eexists. repeat split; reflexivity. Qed.

Lemma Set_BGSSolution_k_exact_copy_witness :
  exists v', Set_BGSSolution_k 1 (demo 2 2 3) = Ok v' /\
    (forall iVar, iVar < nVar (demo 2 2 3) ->
       exists x, Get_BGSSolution 1 iVar (demo 2 2 3) = Ok x /\
                 Get_BGSSolution 1 iVar v' = Ok x /\
                 Get_BGSSolution_k 1 iVar v' = Ok x) /\
    (forall ws v'', run (bgs_writes ws) v' = Ok v'' ->
       forall k iVar, Get_BGSSolution_k k iVar v'' = Get_BGSSolution_k k iVar v').
Proof.
  apply (Set_BGSSolution_k_exact_copy (demo 2 2 3) 1); [reflexivity | simpl; lia].
Defined.

Lemma set_then_get_witness :
  wf (demo 2 2 3) /\ 1 < nPoint (demo 2 2 3) /\
  exists v', SetSensitivity 1 0 7%Z (demo 2 2 3) = Ok v' /\ GetSensitivity 1 0 v' = Ok 7%Z.
Proof.
  assert (Hw : wf (demo 2 2 3)) by reflexivity.
  assert (Hi : 1 < nPoint (demo 2 2 3)) by (simpl; lia).
  split; [exact Hw|]. split; [exact Hi|].
  apply (proj1 (set_then_get (demo 2 2 3) 1 Hw Hi) 0 7%Z). simpl; lia.
Defined.

Lemma dual_time_slots_independent_witness :
  wf (demo 2 2 3) /\ 1 < nPoint (demo 2 2 3) /\ 2 < nVar (demo 2 2 3) /\
  exists old v1 v2,
    GetDual_Time_Derivative 1 2 (demo 2 2 3) = Ok old /\
    SetDual_Time_Derivative_n 1 2 old (demo 2 2 3) = Ok v1 /\
    SetDual_Time_Derivative 1 2 20%Z v1 = Ok v2 /\
    GetDual_Time_Derivative_n 1 2 v2 = Ok old /\
    GetDual_Time_Derivative 1 2 v2 = Ok 20%Z.
Proof.
  assert (Hw : wf (demo 2 2 3)) by reflexivity.
  assert (Hi : 1 < nPoint (demo 2 2 3)) by (simpl; lia).
  assert (Hv : 2 < nVar (demo 2 2 3)) by (simpl; lia).
  split; [exact Hw|]. split; [exact Hi|]. split; [exact Hv|].
  apply (proj2 (proj2 (dual_time_slots_independent (demo 2 2 3) 1 2 Hw Hi Hv)) 20%Z).
Defined.

Lemma geometry_snapshots_disjoint_witness :
  wf (demo 2 2 3) /\ 0 < nPoint (demo 2 2 3) /\
  exists v', Set_BGSSolution_Geometry 0 (demo 2 2 3) = Ok v' /\
    forall iDim, iDim < nDim (demo 2 2 3) ->
      exists x, GetSolution_Geometry 0 iDim (demo 2 2 3) = Ok x /\
                Get_BGSSolution_Geometry 0 iDim v' = Ok x.
Proof.
  assert (Hw : wf (demo 2 2 3)) by reflexivity.
  assert (Hi : 0 < nPoint (demo 2 2 3)) by (simpl; lia).
  split; [exact Hw|]. split; [exact Hi|].
  apply (proj1 (geometry_snapshots_disjoint (demo 2 2 3) 0 Hw Hi)).
Defined.

Lemma Set_OldSolution_Geometry_idempotent_witness :
  exists v1 v2,
    Set_OldSolution_Geometry 1 (demo 2 2 3) = Ok v1 /\
    Set_OldSolution_Geometry 1 v1 = Ok v2 /\
    forall k iDim, Get_OldSolution_Geometry k iDim v2 = Get_OldSolution_Geometry k iDim v1.
Proof.
  apply (Set_OldSolution_Geometry_idempotent (demo 2 2 3) 1); [reflexivity | simpl; lia].
Defined.

Lemma node_independence_witness :
  call (M_SetSolution_Direct [1; 2; 3]%Z) 0 (demo 2 2 3) =
    Ok (set_field F_Solution_Direct [[1; 2; 3]; [0; 0; 0]]%Z (demo 2 2 3)) /\
  (get_field F_Solution_Direct
     (set_field F_Solution_Direct [[1; 2; 3]; [0; 0; 0]]%Z (demo 2 2 3))
     : list (list Z)) !! 1 =
    (get_field F_Solution_Direct (demo 2 2 3) : list (list Z)) !! 1 /\
  forall c,
    fetch F_Solution_Direct 1 c
      (set_field F_Solution_Direct [[1; 2; 3]; [0; 0; 0]]%Z (demo 2 2 3)) =
    fetch F_Solution_Direct 1 c (demo 2 2 3).
Proof.
  split; [reflexivity|].
  apply (node_independence (demo 2 2 3) (M_SetSolution_Direct [1; 2; 3]%Z) 0 1);
    [lia | reflexivity].
Defined.

Lemma Set_BGSSolution_k_reads_Solution_BGS_witness :
  exists v',
    Set_BGSSolution_k 0
      (set_field F_Solution_BGS [[0; 0; 0]; [9; 0; 0]]%Z
         (set_field F_Sensitivity [[5; 0]; [0; 0]]%Z (demo 2 2 3))) = Ok v' /\
    forall iVar, iVar < nVar (demo 2 2 3) ->
      exists x, Get_BGSSolution 0 iVar (demo 2 2 3) = Ok x /\
                Get_BGSSolution_k 0 iVar v' = Ok x.
Proof.
  apply (Set_BGSSolution_k_reads_Solution_BGS (demo 2 2 3)
           [(0, M_SetSensitivity 0 5%Z); (1, M_Set_BGSSolution 0 9%Z)]);
    [reflexivity | simpl; lia | reflexivity | reflexivity].
Defined.

Lemma construction_baseline_witness :
  exists v0, CDiscAdjVariable_new 0%Z [7; 8; 9]%Z 2 2 3 bgs_from_sol = Ok v0 /\
    nPoint v0 = 2 /\ nDim v0 = 2 /\ nVar v0 = 3 /\
    (forall f, mat_shape 2 (axis_width 2 3 f) (get_field f v0)) /\
    (forall f calls v i c,
       run calls v0 = Ok v -> never_touched f i calls = true ->
       i < 2 -> c < axis_width 2 3 f ->
       fetch f i c v = Ok (baseline 0%Z [7; 8; 9]%Z bgs_from_sol f c)).
Proof.
  apply (construction_baseline 0%Z [7; 8; 9]%Z 2 2 3 bgs_from_sol).
  intros f _. destruct f; cbv [axis_width axis_of length]; lia.
Defined.

Lemma out_of_range_access_faults_witness :
  wf (demo 2 2 3) /\
  SetSensitivity 2 0 1%Z (demo 2 2 3) = Fail OutOfBounds /\
  GetSensitivity 2 0 (demo 2 2 3) = Fail OutOfBounds /\
  Set_BGSSolution_k 2 (demo 2 2 3) = Fail OutOfBounds.
Proof.
  assert (Hw : wf (demo 2 2 3)) by reflexivity.
  split; [exact Hw|].
  destruct (out_of_range_access_faults (demo 2 2 3) 2 Hw)
    as (Hspatial & _ & _ & _ & Hsnap & _).
  destruct (Hspatial 0 1%Z) as (Hs & Hg & _).
  - left. simpl. lia.
  - split; [exact Hs|]. split; [exact Hg|].
    apply Hsnap; simpl; lia.
Defined.

(** C5 as stated fails: in an object with one node and no variable, the
    batched setter [SetSolution_Direct] called with the node index 1 = N
    returns normally. *)
Lemma zero_width_vector_set_returns :
  wf (demo 1 2 0) /\ nPoint (demo 1 2 0) <= 1 /\
  SetSolution_Direct 1 [] (demo 1 2 0) = Ok (demo 1 2 0) /\
  is_ok (SetSolution_Direct 1 [] (demo 1 2 0)) = true.
Proof. repeat split. simpl. lia. Qed.

Lemma vector_set_stores_prefix_witness :
  wf (demo 2 2 3) /\ 0 < nPoint (demo 2 2 3) /\
  exists v', SetSolution_Direct 0 [1; 2; 3; 4]%Z (demo 2 2 3) = Ok v' /\
             GetSolution_Direct 0 v' = Ok (take (nVar (demo 2 2 3)) [1; 2; 3; 4]%Z).
Proof.
  assert (Hw : wf (demo 2 2 3)) by reflexivity.
  assert (Hi : 0 < nPoint (demo 2 2 3)) by (simpl; lia).
  split; [exact Hw|]. split; [exact Hi|].
  apply (proj1 (vector_set_stores_prefix (demo 2 2 3) 0 Hw Hi)). simpl; lia.
Defined.

(** C9 as stated fails: [SetSolution_Direct] called with a vector of four
    components on a member three wide does not fail; it returns, and the
    row holds the first three components. *)
Lemma long_vector_accepted :
  nVar (demo 2 2 3) = 3 /\ length [1; 2; 3; 4]%Z = 4 /\
  is_ok (SetSolution_Direct 0 [1; 2; 3; 4]%Z (demo 2 2 3)) = true /\
  exists v', SetSolution_Direct 0 [1; 2; 3; 4]%Z (demo 2 2 3) = Ok v' /\
             GetSolution_Direct 0 v' = Ok [1; 2; 3]%Z.
Proof. repeat split. eexists. split; reflexivity. Qed.

(** * Further properties of the member functions *)

Section Extensionality.
Context {su2double : Type}.
Implicit Types (v : CDiscAdjVariable su2double) (f g : field).

Lemma set_field_get_field f v : set_field f (get_field f v) v = v.
Proof. by destruct v, f. Qed.

Lemma set_field_twice f (m1 m2 : Mat_t su2double) v :
  set_field f m2 (set_field f m1 v) = set_field f m2 v.
Proof. by destruct f. Qed.

(** Two matrices of the same shape with the same entries are equal. *)
Lemma mat_ext n w (m1 m2 : Mat_t su2double) :
  mat_shape n w m1 -> mat_shape n w m2 ->
  (forall k c, k < n -> c < w -> mat_get m1 k c = mat_get m2 k c) -> m1 = m2.
Proof.
  intros [Hn1 Hw1] [Hn2 Hw2] Hent. apply list_eq. intros k.
  destruct (decide (k < n)) as [Hk|Hk]; [|by rewrite !lookup_ge_None_2 by lia].
  destruct (lookup_lt_is_Some_2 (m1 : list (list su2double)) k) as [r1 Hr1]; [lia|].
  destruct (lookup_lt_is_Some_2 (m2 : list (list su2double)) k) as [r2 Hr2]; [lia|].
  rewrite Hr1, Hr2. f_equal. apply list_eq. intros c.
  pose proof (Hw1 _ _ Hr1) as Hl1. pose proof (Hw2 _ _ Hr2) as Hl2.
  destruct (decide (c < w)) as [Hc|Hc]; [|by rewrite !lookup_ge_None_2 by lia].
  specialize (Hent k c Hk Hc). unfold mat_get in Hent. rewrite Hr1, Hr2 in Hent.
  destruct (lookup_lt_is_Some_2 r1 c) as [x1 Hx1]; [lia|].
  destruct (lookup_lt_is_Some_2 r2 c) as [x2 Hx2]; [lia|].
  rewrite Hx1, Hx2 in *. by injection Hent as ->.
Qed.

Lemma obj_ext v1 v2 :
  nPoint v1 = nPoint v2 -> nDim v1 = nDim v2 -> nVar v1 = nVar v2 ->
  (forall f, get_field f v1 = get_field f v2) -> v1 = v2.
Proof.
  intros Hp Hd Hv H. destruct v1, v2. simpl in Hp, Hd, Hv. subst.
  generalize (H F_Sensitivity) (H F_Solution_Direct) (H F_DualTime_Derivative)
    (H F_DualTime_Derivative_n) (H F_Cross_Term_Derivative)
    (H F_Geometry_CrossTerm_Derivative) (H F_Geometry_CrossTerm_Derivative_Flow)
    (H F_Solution_Geometry) (H F_Solution_Geometry_Old) (H F_Geometry_Direct)
    (H F_Solution_BGS) (H F_Solution_BGS_k) (H F_Solution_Geometry_BGS_k).
  simpl. intros. by subst.
Qed.

(** Two objects that satisfy the class invariant, have the same sizes and
    agree on every entry of every member are equal. *)
Lemma state_ext v1 v2 :
  wf v1 -> wf v2 ->
  nPoint v1 = nPoint v2 -> nDim v1 = nDim v2 -> nVar v1 = nVar v2 ->
  (forall f k c, k < nPoint v1 -> c < width f v1 -> fetch f k c v1 = fetch f k c v2) ->
  v1 = v2.
Proof.
  intros Hw1 Hw2 Hp Hd Hv Hent. apply obj_ext; try done. intros f.
  apply (mat_ext (nPoint v1) (width f v1)).
  - by apply wf_field.
  - rewrite Hp. unfold width. rewrite Hd, Hv. by apply wf_field.
  - intros k c Hk Hc. by apply Hent.
Qed.
End Extensionality.

Section Uniform.
Context {su2double : Type}.
Implicit Types (v : CDiscAdjVariable su2double) (f g : field).
Implicit Types (m : @mutator su2double).

Lemma call_by_kind m i v :
  call m i v =
  match kind m with
  | Elementwise j x => assign (target m) i j x v
  | Batched vec =>
      for_loop (width (target m) v)
        (fun j v => let* x := deref vec j in assign (target m) i j x v) v
  | Snapshot from =>
      for_loop (width (target m) v)
        (fun j v => let* x := fetch from i j v in assign (target m) i j x v) v
  end.
Proof. by destruct m. Qed.

Lemma snapshot_kind m from :
  kind m = Snapshot from -> from <> target m /\ axis_of from = axis_of (target m).
Proof. destruct m; simpl; intros [= <-]; done. Qed.

Lemma source_not_target m : source m <> Some (target m).
Proof. by destruct m. Qed.

Lemma callable_sizes m i v v' :
  nPoint v' = nPoint v -> nDim v' = nDim v -> nVar v' = nVar v ->
  callable m i v' = callable m i v.
Proof. intros Hp Hd Hv. unfold callable, width. by rewrite Hp, Hd, Hv. Qed.

(** With the class invariant, a call that returned was callable ... *)
Lemma call_callable m i v v' : wf v -> call m i v = Ok v' -> callable m i v = true.
Proof.
  intros Hw. rewrite call_by_kind. unfold callable.
  destruct (kind m) as [j x|vec|from] eqn:Hk; intros Hc; apply bool_decide_eq_true.
  - apply assign_inv in Hc as (r & Hr & Hj & _).
    pose proof (proj2 (wf_field v (target m) Hw) _ _ Hr) as Hlen.
    apply lookup_lt_Some in Hr. rewrite (proj1 (wf_field v (target m) Hw)) in Hr. lia.
  - destruct (decide (width (target m) v = 0)) as [|Hpos]; [by left|right].
    split.
    + destruct (decide (i < nPoint v)) as [|Hi]; [done|].
      destruct (loop_fail (target m) i (fun j (_ : CDiscAdjVariable su2double) => deref vec j)
                  (width (target m) v) 0 v Hw) as [e He]; [lia..|].
      unfold for_loop in Hc. congruence.
    + apply vector_loop_reads in Hc. lia.
  - destruct (decide (width (target m) v = 0)) as [|Hpos]; [by left|right].
    destruct (decide (i < nPoint v)) as [|Hi]; [done|].
    destruct (loop_fail (target m) i (fetch from i) (width (target m) v) 0 v Hw)
      as [e He]; [lia..|].
    unfold for_loop in Hc. congruence.
Qed.

(** ... and a callable call returns. *)
Lemma callable_call m i v : wf v -> callable m i v = true -> exists v', call m i v = Ok v'.
Proof.
  intros Hw. rewrite call_by_kind. unfold callable.
  destruct (kind m) as [j x|vec|from] eqn:Hk; intros Hc; apply bool_decide_eq_true in Hc.
  - destruct Hc. by apply assign_ok.
  - destruct Hc as [H0|[Hi Hlen]].
    + rewrite H0. by exists v.
    + destruct (vector_set_spec (target m) i vec v) as (v' & Hrun & _); eauto.
  - destruct (snapshot_kind _ _ Hk) as [Hne Hax]. destruct Hc as [H0|Hi].
    + rewrite H0. by exists v.
    + destruct (snapshot_spec (target m) from i v) as (v' & Hrun & _); eauto.
Qed.

(** What a call that returned left in the row of its node. *)
Lemma call_written m i v v' :
  wf v -> call m i v = Ok v' ->
  forall c, i < nPoint v -> c < width (target m) v ->
    fetch (target m) i c v' = written m i c v.
Proof.
  intros Hw Hc c Hi Hcw. pose proof (call_callable _ _ _ _ Hw Hc) as Hcb.
  revert Hc Hcb. rewrite call_by_kind. unfold callable, written.
  destruct (kind m) as [j x|vec|from] eqn:Hk; intros Hc Hcb; apply bool_decide_eq_true in Hcb.
  - case_decide as Hcj.
    + subst c. by eapply assign_fetch_eq.
    + by eapply assign_fetch_ne.
  - destruct Hcb as [H0|[_ Hlen]]; [lia|].
    destruct (vector_set_spec (target m) i vec v Hw Hi Hlen) as (v'' & Hrun & _ & Hent).
    rewrite Hrun in Hc. injection Hc as <-.
    destruct (Hent c Hcw) as (x & Hx & ->). unfold deref. by rewrite Hx.
  - destruct (snapshot_kind _ _ Hk) as [Hne Hax].
    destruct (snapshot_spec (target m) from i v) as (v'' & Hrun & _ & Hent); try done.
    rewrite Hrun in Hc. injection Hc as <-.
    by destruct (Hent c Hcw) as (x & -> & ->).
Qed.

(** What a call writes does not depend on rows it neither assigns to nor
    reads. *)
Lemma written_stable m i c g k v v' :
  modifies_only g k v v' ->
  (g <> target m \/ k <> i) -> (source m <> Some g \/ k <> i) ->
  written m i c v' = written m i c v.
Proof.
  intros Hm Ht Hs. unfold written, source in *.
  destruct (kind m) as [j x|vec|from]; [|done|].
  - case_decide; [done|]. eapply fetch_frame; [done|]. destruct Ht; auto.
  - eapply fetch_frame; [done|]. destruct Hs as [Hs|Hs]; [left; congruence|by right].
Qed.
End Uniform.

Section Composition.
Context {su2double : Type}.
Implicit Types (v : CDiscAdjVariable su2double) (f g : field).
Implicit Types (m : @mutator su2double) (val der : su2double).

(** Assigning to an entry twice is assigning the second value. *)
Lemma assign_overwrite f i j (x y : su2double) v v1 :
  assign f i j x v = Ok v1 -> assign f i j y v1 = assign f i j y v.
Proof.
  intros H. apply assign_inv in H as (r & Hr & Hj & ->).
  unfold assign, mat_set. rewrite get_set_field_eq.
  rewrite list_lookup_insert_eq by (by eapply lookup_lt_Some).
  rewrite Hr, length_insert. case_decide; [|done]. simpl.
  by rewrite !list_insert_insert_eq, set_field_twice.
Qed.

(** Assigning to an entry the value it holds changes nothing. *)
Lemma assign_same f i j (x : su2double) v :
  fetch f i j v = Ok x -> assign f i j x v = Ok v.
Proof.
  unfold fetch, mat_get, assign, mat_set.
  destruct ((get_field f v : list (list su2double)) !! i) as [r|] eqn:Hr; [|done].
  destruct (r !! j) as [y|] eqn:Hy; [|done]. intros [= ->].
  rewrite decide_True by (by eapply lookup_lt_Some). simpl.
  rewrite (list_insert_id r) by done. rewrite list_insert_id by done.
  by rewrite set_field_get_field.
Qed.

Lemma for_range_ext {St : Type} (b1 b2 : nat -> St -> res St) n : forall lo s,
  (forall j s, lo <= j < lo + n -> b1 j s = b2 j s) ->
  for_range lo n b1 s = for_range lo n b2 s.
Proof.
  induction n as [|n IH]; intros lo s Hb; [done|]. simpl.
  rewrite Hb by lia. destruct (b2 lo s) as [s'|e]; [|done]. simpl.
  apply IH. intros j s0 Hj. apply Hb. lia.
Qed.

(** A batched set reads only the first [width] components of its vector. *)
Lemma vector_loop_prefix f i (vec : list su2double) v :
  for_loop (width f v) (fun j s => let* x := deref vec j in assign f i j x s) v =
  for_loop (width f v)
    (fun j s => let* x := deref (take (width f v) vec) j in assign f i j x s) v.
Proof.
  unfold for_loop. apply for_range_ext. intros j s Hj.
  unfold deref. by rewrite lookup_take_lt by lia.
Qed.

(** The loop of the vector overload of [SetSolution_Geometry], as the
    calls of the component overload. *)
Lemma vector_loop_componentwise i (vec : list su2double) n : forall lo v,
  lo + n <= length vec ->
  for_range lo n
    (fun j v => let* x := deref vec j in assign F_Solution_Geometry i j x v) v =
  run (imap (fun k x => (i, M_SetSolution_Geometry (lo + k) x)) (take n (drop lo vec))) v.
Proof.
  induction n as [|n IH]; intros lo v Hlen; [done|].
  destruct (lookup_lt_is_Some_2 vec lo) as [x Hx]; [lia|].
  rewrite (drop_S _ _ _ Hx). simpl. unfold deref at 1. rewrite Hx. simpl.
  rewrite Nat.add_0_r. unfold SetSolution_Geometry.
  destruct (assign F_Solution_Geometry i lo x v) as [v1|e]; [|done]. simpl.
  rewrite IH by lia. f_equal. apply imap_ext. intros k y _. simpl.
  by replace (lo + S k) with (S (lo + k)) by lia.
Qed.

(** Calls that do not interfere can be swapped. *)
Lemma calls_commute m1 i1 m2 i2 v v1 v' :
  wf v -> independent m1 i1 m2 i2 ->
  call m1 i1 v = Ok v1 -> call m2 i2 v1 = Ok v' ->
  exists v2, call m2 i2 v = Ok v2 /\ call m1 i1 v2 = Ok v'.
Proof.
  intros Hw Hind Hc1 Hc12.
  assert (HA : target m1 <> target m2 \/ i1 <> i2) by (destruct Hind; tauto).
  assert (HA' : target m2 <> target m1 \/ i2 <> i1).
  { destruct HA; [left|right]; congruence. }
  assert (HB : source m2 <> Some (target m1) \/ i1 <> i2) by (destruct Hind; tauto).
  assert (HC : source m1 <> Some (target m2) \/ i2 <> i1) by (destruct Hind as [?|?]; [right; lia|tauto]).
  pose proof (call_modifies_only _ _ _ _ Hc1) as Hm1.
  pose proof (call_modifies_only _ _ _ _ Hc12) as Hm12.
  destruct Hm1 as (Hp1 & Hd1 & Hv1 & Ho1 & Hr1 & Hw1).
  pose proof (Hw1 Hw) as Hwf1.
  destruct (callable_call m2 i2 v Hw) as [v2 Hc2].
  { rewrite <- (callable_sizes m2 i2 v v1) by done. by eapply call_callable. }
  pose proof (call_modifies_only _ _ _ _ Hc2) as Hm2.
  destruct Hm2 as (Hp2 & Hd2 & Hv2 & Ho2 & Hr2 & Hw2).
  pose proof (Hw2 Hw) as Hwf2.
  destruct (callable_call m1 i1 v2 Hwf2) as [v21 Hc21].
  { rewrite (callable_sizes m1 i1 v v2) by done. by eapply call_callable. }
  pose proof (call_modifies_only _ _ _ _ Hc21) as Hm21.
  exists v2. split; [done|]. rewrite Hc21. f_equal.
  assert (Hm1' : modifies_only (target m1) i1 v v1) by by repeat split.
  assert (Hm2' : modifies_only (target m2) i2 v v2) by by repeat split.
  destruct Hm12 as (Hp12 & Hd12 & Hv12 & Ho12 & Hr12 & Hw12).
  destruct Hm21 as (Hp21 & Hd21 & Hv21 & Ho21 & Hr21 & Hw21).
  assert (Hm12' : modifies_only (target m2) i2 v1 v') by by repeat split.
  assert (Hm21' : modifies_only (target m1) i1 v2 v21) by by repeat split.
  apply state_ext; [by auto|by auto|congruence..|].
  intros f k c Hk Hcw.
  assert (Hk' : k < nPoint v) by congruence.
  assert (Hcw' : c < width f v).
  { unfold width in *. by rewrite Hd21, Hd2, Hv21, Hv2 in Hcw. }
  destruct (decide (f = target m2 /\ k = i2)) as [[-> ->]|Hn2].
  - rewrite (fetch_frame _ _ _ _ _ _ c Hm21') by exact HA'.
    rewrite (call_written _ _ _ _ Hw Hc2) by done.
    rewrite (call_written _ _ _ _ Hwf1 Hc12).
    + symmetry. by apply (written_stable _ _ _ _ _ _ _ Hm1').
    + congruence.
    + unfold width in *. by rewrite Hd1, Hv1.
  - rewrite (fetch_frame _ _ _ _ _ _ c Hm12') by (destruct (decide (f = target m2)); [right|left]; tauto).
    destruct (decide (f = target m1 /\ k = i1)) as [[-> ->]|Hn1].
    + rewrite (call_written _ _ _ _ Hw Hc1) by done.
      rewrite (call_written _ _ _ _ Hwf2 Hc21).
      * by apply (written_stable _ _ _ _ _ _ _ Hm2').
      * congruence.
      * unfold width in *. by rewrite Hd2, Hv2.
    + rewrite (fetch_frame _ _ _ _ _ _ c Hm21')
        by (destruct (decide (f = target m1)); [right|left]; tauto).
      rewrite (fetch_frame _ _ _ _ _ _ c Hm2')
        by (destruct (decide (f = target m2)); [right|left]; tauto).
      symmetry. apply (fetch_frame _ _ _ _ _ _ c Hm1').
      destruct (decide (f = target m1)); [right|left]; tauto.
Qed.

(** A later call on the same row makes an earlier one void when it
    assigns to the whole row, or to the entry the earlier one assigned to. *)
Lemma call_absorbs m m' i v v1 v' :
  wf v -> target m = target m' ->
  match kind m' with
  | Elementwise j _ => exists x, kind m = Elementwise j x
  | _ => True
  end ->
  call m i v = Ok v1 -> call m' i v1 = Ok v' -> call m' i v = Ok v'.
Proof.
  intros Hw Ht Hk Hc1 Hc2.
  pose proof (call_modifies_only _ _ _ _ Hc1) as Hm1.
  pose proof (call_modifies_only _ _ _ _ Hc2) as Hm2. rewrite <- Ht in Hm2.
  assert (Hwf1 : wf v1) by by apply Hm1.
  destruct (callable_call m' i v Hw) as [v'' Hc3].
  { rewrite <- (callable_sizes m' i v v1) by apply Hm1. by eapply call_callable. }
  pose proof (call_modifies_only _ _ _ _ Hc3) as Hm3. rewrite <- Ht in Hm3.
  rewrite Hc3. f_equal.
  pose proof (modifies_only_trans _ _ _ _ _ Hm1 Hm2) as Hm12.
  apply state_ext.
  - by apply Hm3.
  - by apply Hm12.
  - destruct Hm3 as (-> & _), Hm12 as (-> & _). done.
  - destruct Hm3 as (_ & -> & _), Hm12 as (_ & -> & _). done.
  - destruct Hm3 as (_ & _ & -> & _), Hm12 as (_ & _ & -> & _). done.
  - intros f k c Hkn Hcw.
    assert (Hkn' : k < nPoint v) by (by destruct Hm3 as (<- & _)).
    assert (Hcw' : c < width f v) by (by rewrite <- (modifies_only_width _ _ _ _ f Hm3)).
    destruct (decide (f = target m /\ k = i)) as [[-> ->]|Hne].
    + rewrite Ht. rewrite (call_written _ _ _ _ Hw Hc3) by (by rewrite <- ?Ht).
      rewrite (call_written _ _ _ _ Hwf1 Hc2).
      * unfold written. destruct (kind m') as [j y|vec|from] eqn:Hk'; [|done|].
        -- case_decide as Hcj; [done|]. destruct Hk as [x Hkm].
           rewrite <- Ht. rewrite (call_written _ _ _ _ Hw Hc1) by done.
           unfold written. rewrite Hkm. by rewrite decide_False.
        -- destruct (snapshot_kind _ _ Hk') as [Hne _].
           symmetry. eapply fetch_frame; [exact Hm1|]. left. congruence.
      * by destruct Hm1 as (-> & _).
      * rewrite <- Ht. by rewrite (modifies_only_width _ _ _ _ _ Hm1).
    + rewrite (fetch_frame _ _ _ _ _ _ c Hm3)
        by (destruct (decide (f = target m)); [right|left]; tauto).
      symmetry. apply (fetch_frame _ _ _ _ _ _ c Hm12).
      destruct (decide (f = target m)); [right|left]; tauto.
Qed.
End Composition.

Section Extras.
Context {su2double : Type}.
Implicit Types (v : CDiscAdjVariable su2double) (f g : field).
Implicit Types (m : @mutator su2double) (val der : su2double) (iPoint : nat).

(** X1. A member changes only through the member functions that assign
    to it: after any sequence of calls none of which assigns to member
    [f], the whole matrix [f] is what it was. *)
Theorem member_changes_only_by_its_calls (calls : list (nat * mutator)) v v' f :
  run calls v = Ok v' -> Forall (fun c => target c.2 <> f) calls ->
  get_field f v' = get_field f v.
Proof.
  revert v. induction calls as [|[k m] rest IH]; intros v Hrun Hall; simpl in Hrun.
  - by injection Hrun as <-.
  - apply bind_ok_inv in Hrun as (v1 & Hc & Hrest).
    apply Forall_cons in Hall as [Hm Hall]. simpl in Hm.
    rewrite (IH _ Hrest Hall).
    apply call_modifies_only in Hc as (_ & _ & _ & Ho & _). by apply Ho.
Qed.

(** X2. No member function resizes anything: along any sequence of calls
    that returns, [nPoint], [nDim] and [nVar] stay what they were and every
    matrix keeps [nPoint] rows of the width of its axis. *)
Theorem run_keeps_shape (calls : list (nat * mutator)) v v' :
  wf v -> run calls v = Ok v' ->
  nPoint v' = nPoint v /\ nDim v' = nDim v /\ nVar v' = nVar v /\
  forall f, mat_shape (nPoint v) (width f v) (get_field f v').
Proof.
  revert v. induction calls as [|[k m] rest IH]; intros v Hw Hrun; simpl in Hrun.
  - injection Hrun as <-. repeat split; try done; by apply wf_field.
  - apply bind_ok_inv in Hrun as (v1 & Hc & Hrest).
    apply call_modifies_only in Hc as (Hp & Hd & Hv & _ & _ & Hw1).
    destruct (IH v1 (Hw1 Hw) Hrest) as (Hp' & Hd' & Hv' & Hsh).
    repeat split; try congruence; specialize (Hsh f); unfold width in *;
      rewrite Hp, Hd, Hv in Hsh; apply Hsh.
Qed.

Lemma assign_twice f iPoint j (x y : su2double) v :
  wf v -> iPoint < nPoint v -> j < width f v ->
  exists v1, assign f iPoint j x v = Ok v1 /\
             assign f iPoint j y v1 = assign f iPoint j y v.
Proof.
  intros Hw Hi Hj. destruct (assign_ok f iPoint j x v Hw Hi Hj) as [v1 Hv1].
  exists v1. split; [done|]. by eapply assign_overwrite.
Qed.

(** X3. The last write wins: for each of the eight element-wise setters
    and every valid entry, setting [x] and then [y] gives the same result,
    the same whole object, as setting [y] alone. *)
Theorem last_write_wins v iPoint (x y : su2double) :
  wf v -> iPoint < nPoint v ->
  (forall iDim, iDim < nDim v ->
     (exists v1, SetSensitivity iPoint iDim x v = Ok v1 /\
        SetSensitivity iPoint iDim y v1 = SetSensitivity iPoint iDim y v) /\
     (exists v1, SetSolution_Geometry iPoint iDim x v = Ok v1 /\
        SetSolution_Geometry iPoint iDim y v1 = SetSolution_Geometry iPoint iDim y v) /\
     (exists v1, SetGeometry_CrossTerm_Derivative iPoint iDim x v = Ok v1 /\
        SetGeometry_CrossTerm_Derivative iPoint iDim y v1 =
          SetGeometry_CrossTerm_Derivative iPoint iDim y v) /\
     (exists v1, SetGeometry_CrossTerm_Derivative_Flow iPoint iDim x v = Ok v1 /\
        SetGeometry_CrossTerm_Derivative_Flow iPoint iDim y v1 =
          SetGeometry_CrossTerm_Derivative_Flow iPoint iDim y v)) /\
  (forall iVar, iVar < nVar v ->
     (exists v1, SetDual_Time_Derivative iPoint iVar x v = Ok v1 /\
        SetDual_Time_Derivative iPoint iVar y v1 = SetDual_Time_Derivative iPoint iVar y v) /\
     (exists v1, SetDual_Time_Derivative_n iPoint iVar x v = Ok v1 /\
        SetDual_Time_Derivative_n iPoint iVar y v1 =
          SetDual_Time_Derivative_n iPoint iVar y v) /\
     (exists v1, Set_BGSSolution iPoint iVar x v = Ok v1 /\
        Set_BGSSolution iPoint iVar y v1 = Set_BGSSolution iPoint iVar y v) /\
     (exists v1, SetCross_Term_Derivative iPoint iVar x v = Ok v1 /\
        SetCross_Term_Derivative iPoint iVar y v1 = SetCross_Term_Derivative iPoint iVar y v)).
Proof.
  intros Hw Hi. split.
  - intros iDim Hd. repeat split.
    + by apply (assign_twice F_Sensitivity).
    + by apply (assign_twice F_Solution_Geometry).
    + by apply (assign_twice F_Geometry_CrossTerm_Derivative).
    + by apply (assign_twice F_Geometry_CrossTerm_Derivative_Flow).
  - intros iVar Hv. repeat split.
    + by apply (assign_twice F_DualTime_Derivative).
    + by apply (assign_twice F_DualTime_Derivative_n).
    + by apply (assign_twice F_Solution_BGS).
    + by apply (assign_twice F_Cross_Term_Derivative).
Qed.

Lemma fetch_then_assign f iPoint j v :
  wf v -> iPoint < nPoint v -> j < width f v ->
  exists x, fetch f iPoint j v = Ok x /\ assign f iPoint j x v = Ok v.
Proof.
  intros Hw Hi Hj. destruct (fetch_ok f iPoint j v Hw Hi Hj) as [x Hx].
  exists x. split; [done|]. by apply assign_same.
Qed.

(** X4. Writing back what was read changes nothing: for each of the eight
    members that have both an element-wise getter and setter, and every
    valid entry, the getter returns a value, and the setter called with
    that value returns the object unchanged. *)
Theorem write_back_is_identity v iPoint :
  wf v -> iPoint < nPoint v ->
  (forall iDim, iDim < nDim v ->
     (exists x, GetSensitivity iPoint iDim v = Ok x /\
                SetSensitivity iPoint iDim x v = Ok v) /\
     (exists x, GetSolution_Geometry iPoint iDim v = Ok x /\
                SetSolution_Geometry iPoint iDim x v = Ok v) /\
     (exists x, GetGeometry_CrossTerm_Derivative iPoint iDim v = Ok x /\
                SetGeometry_CrossTerm_Derivative iPoint iDim x v = Ok v) /\
     (exists x, GetGeometry_CrossTerm_Derivative_Flow iPoint iDim v = Ok x /\
                SetGeometry_CrossTerm_Derivative_Flow iPoint iDim x v = Ok v)) /\
  (forall iVar, iVar < nVar v ->
     (exists x, GetDual_Time_Derivative iPoint iVar v = Ok x /\
                SetDual_Time_Derivative iPoint iVar x v = Ok v) /\
     (exists x, GetDual_Time_Derivative_n iPoint iVar v = Ok x /\
                SetDual_Time_Derivative_n iPoint iVar x v = Ok v) /\
     (exists x, Get_BGSSolution iPoint iVar v = Ok x /\
                Set_BGSSolution iPoint iVar x v = Ok v) /\
     (exists x, GetCross_Term_Derivative iPoint iVar v = Ok x /\
                SetCross_Term_Derivative iPoint iVar x v = Ok v)).
Proof.
  intros Hw Hi. split.
  - intros iDim Hd. repeat split.
    + by apply (fetch_then_assign F_Sensitivity).
    + by apply (fetch_then_assign F_Solution_Geometry).
    + by apply (fetch_then_assign F_Geometry_CrossTerm_Derivative).
    + by apply (fetch_then_assign F_Geometry_CrossTerm_Derivative_Flow).
  - intros iVar Hv. repeat split.
    + by apply (fetch_then_assign F_DualTime_Derivative).
    + by apply (fetch_then_assign F_DualTime_Derivative_n).
    + by apply (fetch_then_assign F_Solution_BGS).
    + by apply (fetch_then_assign F_Cross_Term_Derivative).
Qed.

(** X5. The two overloads of [SetSolution_Geometry] agree: called with a
    vector of at least [nDim] components, the vector overload gives the
    same result as the component overload called for the components 0, 1,
    ..., [nDim - 1] of the vector in turn. *)
Theorem SetSolution_Geometry_overloads_agree v iPoint (vec : list su2double) :
  nDim v <= length vec ->
  SetSolution_Geometry_vec iPoint vec v = run (componentwise iPoint (take (nDim v) vec)) v.
Proof.
  intros Hlen. unfold SetSolution_Geometry_vec, for_loop, componentwise.
  by rewrite (vector_loop_componentwise iPoint vec (nDim v) 0 v Hlen).
Qed.

(** X6. A batched setter reads only the first [nVar] (respectively
    [nDim]) components of its vector: the result of the call is that of
    the call with the vector cut to that length. *)
Theorem batched_set_reads_prefix v iPoint (vec : list su2double) :
  SetSolution_Direct iPoint vec v = SetSolution_Direct iPoint (take (nVar v) vec) v /\
  SetGeometry_Direct iPoint vec v = SetGeometry_Direct iPoint (take (nDim v) vec) v /\
  SetSolution_Geometry_vec iPoint vec v =
    SetSolution_Geometry_vec iPoint (take (nDim v) vec) v.
Proof.
  split; [|split].
  - apply (vector_loop_prefix F_Solution_Direct).
  - apply (vector_loop_prefix F_Geometry_Direct).
  - apply (vector_loop_prefix F_Solution_Geometry).
Qed.

(** X7. A batched set replaces the whole row: after any earlier batched
    set of the same member on the same node, and for [Solution_Geometry]
    also after an earlier component-wise set, a batched set that returns
    gives the object the same batched set gives without the earlier call. *)
Theorem batched_set_overwrites_row v iPoint (vec1 vec2 : list su2double) v1 v' :
  wf v ->
  (SetSolution_Direct iPoint vec1 v = Ok v1 -> SetSolution_Direct iPoint vec2 v1 = Ok v' ->
   SetSolution_Direct iPoint vec2 v = Ok v') /\
  (SetGeometry_Direct iPoint vec1 v = Ok v1 -> SetGeometry_Direct iPoint vec2 v1 = Ok v' ->
   SetGeometry_Direct iPoint vec2 v = Ok v') /\
  (SetSolution_Geometry_vec iPoint vec1 v = Ok v1 ->
   SetSolution_Geometry_vec iPoint vec2 v1 = Ok v' ->
   SetSolution_Geometry_vec iPoint vec2 v = Ok v') /\
  (forall iDim x, SetSolution_Geometry iPoint iDim x v = Ok v1 ->
   SetSolution_Geometry_vec iPoint vec2 v1 = Ok v' ->
   SetSolution_Geometry_vec iPoint vec2 v = Ok v').
Proof.
  intros Hw. split; [|split; [|split]].
  - by apply (call_absorbs (M_SetSolution_Direct vec1) (M_SetSolution_Direct vec2)).
  - by apply (call_absorbs (M_SetGeometry_Direct vec1) (M_SetGeometry_Direct vec2)).
  - by apply (call_absorbs (M_SetSolution_Geometry_vec vec1) (M_SetSolution_Geometry_vec vec2)).
  - intros iDim x.
    by apply (call_absorbs (M_SetSolution_Geometry iDim x) (M_SetSolution_Geometry_vec vec2)).
Qed.

Lemma call_idempotent m i v v1 :
  wf v -> (forall j x, kind m <> Elementwise j x) ->
  call m i v = Ok v1 -> call m i v1 = Ok v1.
Proof.
  intros Hw Hk Hc.
  pose proof (call_modifies_only _ _ _ _ Hc) as (Hp & Hd & Hv & _ & _ & Hw1).
  destruct (callable_call m i v1 (Hw1 Hw)) as [v' Hc'].
  { rewrite (callable_sizes m i v v1) by done. by eapply call_callable. }
  assert (call m i v = Ok v') as Hc''.
  { apply (call_absorbs m m i v v1 v'); try done.
    destruct (kind m) as [j x| |] eqn:Hkm; [|done..]. by destruct (Hk j x). }
  congruence.
Qed.

(** X8. Each of the three snapshot operations is idempotent on the whole
    object: a second call on the same node, right after a first one that
    returned, returns the object unchanged. *)
Theorem snapshots_idempotent v iPoint v1 :
  wf v ->
  (Set_OldSolution_Geometry iPoint v = Ok v1 -> Set_OldSolution_Geometry iPoint v1 = Ok v1) /\
  (Set_BGSSolution_k iPoint v = Ok v1 -> Set_BGSSolution_k iPoint v1 = Ok v1) /\
  (Set_BGSSolution_Geometry iPoint v = Ok v1 -> Set_BGSSolution_Geometry iPoint v1 = Ok v1).
Proof.
  intros Hw. split; [|split].
  - by apply (call_idempotent M_Set_OldSolution_Geometry).
  - by apply (call_idempotent M_Set_BGSSolution_k).
  - by apply (call_idempotent M_Set_BGSSolution_Geometry).
Qed.

(** X9. Write, snapshot, write: for a valid entry, after
    [Set_BGSSolution] with [x], [Set_BGSSolution_k] on the node and
    [Set_BGSSolution] with [y], all of which return, [Get_BGSSolution_k]
    reads [x] and [Get_BGSSolution] reads [y]. *)
Theorem bgs_write_snapshot_write v iPoint iVar (x y : su2double) :
  wf v -> iPoint < nPoint v -> iVar < nVar v ->
  exists v1 v2 v3,
    Set_BGSSolution iPoint iVar x v = Ok v1 /\
    Set_BGSSolution_k iPoint v1 = Ok v2 /\
    Set_BGSSolution iPoint iVar y v2 = Ok v3 /\
    Get_BGSSolution_k iPoint iVar v3 = Ok x /\
    Get_BGSSolution iPoint iVar v3 = Ok y.
Proof.
  intros Hw Hi Hv.
  destruct (assign_then_fetch F_Solution_BGS iPoint iVar x v) as (v1 & Hs1 & Hg1); [done..|].
  pose proof (assign_modifies_only _ _ _ _ _ _ Hs1) as Hm1.
  assert (Hw1 : wf v1) by by apply Hm1.
  assert (Hi1 : iPoint < nPoint v1) by by destruct Hm1 as (-> & _).
  destruct (snapshot_spec F_Solution_BGS_k F_Solution_BGS iPoint v1)
    as (v2 & Hs2 & Hm2 & Hcopy); try done.
  assert (Hw2 : wf v2) by by apply Hm2.
  destruct (assign_then_fetch F_Solution_BGS iPoint iVar y v2) as (v3 & Hs3 & Hg3).
  { done. }
  { by destruct Hm2 as (-> & _). }
  { rewrite (modifies_only_width _ _ _ _ _ Hm2), (modifies_only_width _ _ _ _ _ Hm1). done. }
  exists v1, v2, v3. repeat split; try done.
  unfold Get_BGSSolution_k.
  rewrite (fetch_frame _ _ _ _ _ _ _ (assign_modifies_only _ _ _ _ _ _ Hs3)) by by left.
  destruct (Hcopy iVar) as (z & Hz & ->).
  { change (iVar < nVar v1). by destruct Hm1 as (_ & _ & -> & _). }
  congruence.
Qed.

(** X10. Calls on different nodes commute: if a call on node [i1]
    followed by a call on another node [i2] returns, then the two calls in
    the other order return too, and return the same object. *)
Theorem distinct_nodes_commute m1 (i1 : nat) m2 (i2 : nat) v v1 v' :
  wf v -> i1 <> i2 ->
  call m1 i1 v = Ok v1 -> call m2 i2 v1 = Ok v' ->
  exists v2, call m2 i2 v = Ok v2 /\ call m1 i1 v2 = Ok v'.
Proof. intros Hw Hne. apply calls_commute; [done|by left]. Qed.

(** X11. Calls on unrelated members commute, also on the same node: if
    two calls assign to different members and neither assigns to the
    member the other copies from, then the calls in either order return
    the same object. *)
Theorem unrelated_members_commute m1 (i1 : nat) m2 (i2 : nat) v v1 v' :
  wf v ->
  target m1 <> target m2 ->
  source m1 <> Some (target m2) -> source m2 <> Some (target m1) ->
  call m1 i1 v = Ok v1 -> call m2 i2 v1 = Ok v' ->
  exists v2, call m2 i2 v = Ok v2 /\ call m1 i1 v2 = Ok v'.
Proof. intros Hw Ht Hs1 Hs2. apply calls_commute; [done|by right]. Qed.

(** X12. The two geometry snapshots of a node, taken one after the other,
    agree: both calls return, and for every component
    [Get_OldSolution_Geometry] and [Get_BGSSolution_Geometry] read the
    value [GetSolution_Geometry] reads. *)
Theorem geometry_snapshots_agree v iPoint :
  wf v -> iPoint < nPoint v ->
  exists v1 v2,
    Set_OldSolution_Geometry iPoint v = Ok v1 /\
    Set_BGSSolution_Geometry iPoint v1 = Ok v2 /\
    forall iDim, iDim < nDim v ->
      exists x, GetSolution_Geometry iPoint iDim v2 = Ok x /\
                Get_OldSolution_Geometry iPoint iDim v2 = Ok x /\
                Get_BGSSolution_Geometry iPoint iDim v2 = Ok x.
Proof.
  intros Hw Hi.
  destruct (snapshot_spec F_Solution_Geometry_Old F_Solution_Geometry iPoint v)
    as (v1 & Hs1 & Hm1 & Hcopy1); try done.
  assert (Hw1 : wf v1) by by apply Hm1.
  assert (Hi1 : iPoint < nPoint v1) by by destruct Hm1 as (-> & _).
  destruct (snapshot_spec F_Solution_Geometry_BGS_k F_Solution_Geometry iPoint v1)
    as (v2 & Hs2 & Hm2 & Hcopy2); try done.
  exists v1, v2. split; [exact Hs1|]. split; [exact Hs2|].
  intros iDim Hd.
  destruct (Hcopy1 iDim Hd) as (x & Hx & Hold).
  destruct (Hcopy2 iDim) as (z & Hz & Hbgs).
  { change (iDim < nDim v1). by destruct Hm1 as (_ & -> & _). }
  rewrite (fetch_frame _ _ _ _ _ _ _ Hm1) in Hz by by left.
  assert (z = x) as -> by congruence.
  exists x. unfold GetSolution_Geometry, Get_OldSolution_Geometry, Get_BGSSolution_Geometry.
  rewrite !(fetch_frame _ _ _ _ F_Solution_Geometry _ _ Hm2) by by left.
  rewrite !(fetch_frame _ _ _ _ F_Solution_Geometry_Old _ _ Hm2) by by left.
  rewrite (fetch_frame _ _ _ _ _ _ _ Hm1) by by left.
  done.
Qed.

(** X13. On a valid node the two row getters return a row of exactly
    [nVar] (respectively [nDim]) values, and the two overloads of
    [GetGeometry_Direct] agree: component [iDim] of the row is the value
    the element overload returns. *)
Theorem row_getters_return_full_rows v iPoint :
  wf v -> iPoint < nPoint v ->
  (exists r, GetSolution_Direct iPoint v = Ok r /\ length r = nVar v) /\
  (exists r, GetGeometry_Direct_row iPoint v = Ok r /\ length r = nDim v /\
     forall iDim, iDim < nDim v ->
       exists x, r !! iDim = Some x /\ GetGeometry_Direct iPoint iDim v = Ok x).
Proof.
  intros Hw Hi. split.
  - apply (mat_row_ok _ _ _ _ (wf_field v F_Solution_Direct Hw) Hi).
  - destruct (mat_row_ok _ _ _ _ (wf_field v F_Geometry_Direct Hw) Hi) as (r & Hr & Hlen).
    exists r. split; [exact Hr|]. split; [exact Hlen|].
    intros iDim Hd. destruct (lookup_lt_is_Some_2 r iDim) as [x Hx].
    { rewrite Hlen. exact Hd. }
    exists x. split; [done|].
    unfold GetGeometry_Direct, fetch, mat_get. unfold mat_row in Hr. simpl in *.
    destruct ((Geometry_Direct v : list (list su2double)) !! iPoint) as [r'|]; [|done].
    injection Hr as ->. by rewrite Hx.
Qed.
End Extras.

(** * The further properties on concrete objects *)

Lemma member_changes_only_by_its_calls_witness :
  get_field F_Solution_Direct
    (set_field F_Solution_BGS [[0; 0; 0]; [9; 0; 0]]%Z
       (set_field F_Sensitivity [[5; 0]; [0; 0]]%Z (demo 2 2 3))) =
  get_field F_Solution_Direct (demo 2 2 3).
Proof.
  apply (member_changes_only_by_its_calls
           [(0, M_SetSensitivity 0 5%Z); (1, M_Set_BGSSolution 0 9%Z)]);
    [reflexivity | repeat constructor; discriminate].
Defined.

Lemma run_keeps_shape_witness :
  nPoint (set_field F_Solution_BGS [[0; 0; 0]; [9; 0; 0]]%Z
            (set_field F_Sensitivity [[5; 0]; [0; 0]]%Z (demo 2 2 3))) = nPoint (demo 2 2 3) /\
  nDim (set_field F_Solution_BGS [[0; 0; 0]; [9; 0; 0]]%Z
          (set_field F_Sensitivity [[5; 0]; [0; 0]]%Z (demo 2 2 3))) = nDim (demo 2 2 3) /\
  nVar (set_field F_Solution_BGS [[0; 0; 0]; [9; 0; 0]]%Z
          (set_field F_Sensitivity [[5; 0]; [0; 0]]%Z (demo 2 2 3))) = nVar (demo 2 2 3) /\
  forall f, mat_shape (nPoint (demo 2 2 3)) (width f (demo 2 2 3))
              (get_field f (set_field F_Solution_BGS [[0; 0; 0]; [9; 0; 0]]%Z
                              (set_field F_Sensitivity [[5; 0]; [0; 0]]%Z (demo 2 2 3)))).
Proof.
  apply (run_keeps_shape [(0, M_SetSensitivity 0 5%Z); (1, M_Set_BGSSolution 0 9%Z)]);
    reflexivity.
Defined.

Lemma last_write_wins_witness :
  wf (demo 2 2 3) /\ 1 < nPoint (demo 2 2 3) /\
  exists v1, SetSensitivity 1 0 7%Z (demo 2 2 3) = Ok v1 /\
             SetSensitivity 1 0 8%Z v1 = SetSensitivity 1 0 8%Z (demo 2 2 3).
Proof.
  assert (Hw : wf (demo 2 2 3)) by reflexivity.
  assert (Hi : 1 < nPoint (demo 2 2 3)) by (simpl; lia).
  split; [exact Hw|]. split; [exact Hi|].
  apply (proj1 (last_write_wins (demo 2 2 3) 1 7%Z 8%Z Hw Hi) 0). simpl; lia.
Defined.

Lemma write_back_is_identity_witness :
  wf (demo 2 2 3) /\ 1 < nPoint (demo 2 2 3) /\
  exists x, Get_BGSSolution 1 2 (demo 2 2 3) = Ok x /\
            Set_BGSSolution 1 2 x (demo 2 2 3) = Ok (demo 2 2 3).
Proof.
  assert (Hw : wf (demo 2 2 3)) by reflexivity.
  assert (Hi : 1 < nPoint (demo 2 2 3)) by (simpl; lia).
  split; [exact Hw|]. split; [exact Hi|].
  apply (proj2 (write_back_is_identity (demo 2 2 3) 1 Hw Hi) 2). simpl; lia.
Defined.

Lemma SetSolution_Geometry_overloads_agree_witness :
  SetSolution_Geometry_vec 1 [4; 5; 6]%Z (demo 2 2 3) =
  run (componentwise 1 (take (nDim (demo 2 2 3)) [4; 5; 6]%Z)) (demo 2 2 3).
Proof.
  apply (SetSolution_Geometry_overloads_agree (demo 2 2 3) 1 [4; 5; 6]%Z). simpl; lia.
Defined.

Lemma batched_set_overwrites_row_witness :
  wf (demo 2 2 3) /\
  SetSolution_Direct 0 [4; 5; 6]%Z (demo 2 2 3) =
    Ok (set_field F_Solution_Direct [[4; 5; 6]; [0; 0; 0]]%Z (demo 2 2 3)).
Proof.
  assert (Hw : wf (demo 2 2 3)) by reflexivity.
  split; [exact Hw|].
  apply (proj1 (batched_set_overwrites_row (demo 2 2 3) 0 [1; 2; 3]%Z [4; 5; 6]%Z
                  (set_field F_Solution_Direct [[1; 2; 3]; [0; 0; 0]]%Z (demo 2 2 3))
                  (set_field F_Solution_Direct [[4; 5; 6]; [0; 0; 0]]%Z (demo 2 2 3))
                  Hw)); reflexivity.
Defined.

Lemma snapshots_idempotent_witness :
  wf (set_field F_Solution_BGS [[1; 2; 3]; [0; 0; 0]]%Z (demo 2 2 3)) /\
  Set_BGSSolution_k 0
    (set_field F_Solution_BGS_k [[1; 2; 3]; [0; 0; 0]]%Z
       (set_field F_Solution_BGS [[1; 2; 3]; [0; 0; 0]]%Z (demo 2 2 3))) =
  Ok (set_field F_Solution_BGS_k [[1; 2; 3]; [0; 0; 0]]%Z
        (set_field F_Solution_BGS [[1; 2; 3]; [0; 0; 0]]%Z (demo 2 2 3))).
Proof.
  assert (Hw : wf (set_field F_Solution_BGS [[1; 2; 3]; [0; 0; 0]]%Z (demo 2 2 3)))
    by reflexivity.
  split; [exact Hw|].
  apply (proj1 (proj2 (snapshots_idempotent
                         (set_field F_Solution_BGS [[1; 2; 3]; [0; 0; 0]]%Z (demo 2 2 3)) 0 _ Hw))).
  reflexivity.
Defined.

Lemma bgs_write_snapshot_write_witness :
  exists v1 v2 v3,
    Set_BGSSolution 1 2 10%Z (demo 2 2 3) = Ok v1 /\
    Set_BGSSolution_k 1 v1 = Ok v2 /\
    Set_BGSSolution 1 2 20%Z v2 = Ok v3 /\
    Get_BGSSolution_k 1 2 v3 = Ok 10%Z /\
    Get_BGSSolution 1 2 v3 = Ok 20%Z.
Proof.
  apply (bgs_write_snapshot_write (demo 2 2 3) 1 2 10%Z 20%Z);
    [reflexivity | simpl; lia | simpl; lia].
Defined.

Lemma distinct_nodes_commute_witness :
  exists v2,
    call (M_Set_BGSSolution 0 9%Z) 1 (demo 2 2 3) = Ok v2 /\
    call (M_SetSensitivity 0 5%Z) 0 v2 =
      Ok (set_field F_Solution_BGS [[0; 0; 0]; [9; 0; 0]]%Z
            (set_field F_Sensitivity [[5; 0]; [0; 0]]%Z (demo 2 2 3))).
Proof.
  apply (distinct_nodes_commute (M_SetSensitivity 0 5%Z) 0 (M_Set_BGSSolution 0 9%Z) 1
           (demo 2 2 3) (set_field F_Sensitivity [[5; 0]; [0; 0]]%Z (demo 2 2 3)));
    [reflexivity | lia | reflexivity | reflexivity].
Defined.

Lemma unrelated_members_commute_witness :
  exists v2,
    call M_Set_BGSSolution_k 0 (set_field F_Solution_BGS [[1; 2; 3]; [0; 0; 0]]%Z (demo 2 2 3))
      = Ok v2 /\
    call (M_SetSensitivity 0 5%Z) 0 v2 =
      Ok (set_field F_Solution_BGS_k [[1; 2; 3]; [0; 0; 0]]%Z
            (set_field F_Sensitivity [[5; 0]; [0; 0]]%Z
               (set_field F_Solution_BGS [[1; 2; 3]; [0; 0; 0]]%Z (demo 2 2 3)))).
Proof.
  apply (unrelated_members_commute (M_SetSensitivity 0 5%Z) 0 M_Set_BGSSolution_k 0
           (set_field F_Solution_BGS [[1; 2; 3]; [0; 0; 0]]%Z (demo 2 2 3))
           (set_field F_Sensitivity [[5; 0]; [0; 0]]%Z
              (set_field F_Solution_BGS [[1; 2; 3]; [0; 0; 0]]%Z (demo 2 2 3))));
    [reflexivity | discriminate | discriminate | discriminate | reflexivity | reflexivity].
Defined.

Lemma geometry_snapshots_agree_witness :
  exists v1 v2,
    Set_OldSolution_Geometry 0 (demo 2 2 3) = Ok v1 /\
    Set_BGSSolution_Geometry 0 v1 = Ok v2 /\
    forall iDim, iDim < nDim (demo 2 2 3) ->
      exists x, GetSolution_Geometry 0 iDim v2 = Ok x /\
                Get_OldSolution_Geometry 0 iDim v2 = Ok x /\
                Get_BGSSolution_Geometry 0 iDim v2 = Ok x.
Proof.
  apply (geometry_snapshots_agree (demo 2 2 3) 0); [reflexivity | simpl; lia].
Defined.

Lemma row_getters_return_full_rows_witness :
  (exists r, GetSolution_Direct 1 (demo 2 2 3) = Ok r /\ length r = nVar (demo 2 2 3)) /\
  (exists r, GetGeometry_Direct_row 1 (demo 2 2 3) = Ok r /\ length r = nDim (demo 2 2 3) /\
     forall iDim, iDim < nDim (demo 2 2 3) ->
       exists x, r !! iDim = Some x /\ GetGeometry_Direct 1 iDim (demo 2 2 3) = Ok x).
Proof.
  apply (row_getters_return_full_rows (demo 2 2 3) 1); [reflexivity | simpl; lia].
Defined.
